(** * CS2 allocators (compiler/cs2/allocator.h)

    A shallow embedding of [shared_allocator] and [arena_allocator] and the
    properties of the segment chain, the bump cursor and the traffic with
    the backing allocator.

    Conventions of the embedding.
    - [size_t] values are integers in [0, 2^64); every arithmetic
      operation the source performs on them is reduced modulo [2^64]
      (LP64: [sizeof(size_t) = 8], [sizeof(Segment) = 16]).
    - Pointers are addresses in [Z]; pointer arithmetic is exact (a pointer
      sum that leaves the 64-bit address space, undefined in the source, is
      not reduced).
    - The Segment headers that live in memory are kept in a store indexed
      by address; payload bytes are kept in a separate byte store.  The two
      field stores that initialise a new header are one store of the whole
      struct.  Reading a header where none was written, or writing one
      through [NULL], is undefined behaviour and makes the operation return
      [None].  Block bounds are not tracked by the stores.
    - The backing allocator is the template parameter [base_allocator]: any
      type with an allocate and a deallocate operation.  The calls that
      reach it are recorded, in order, in the ghost field [calls]. *)

From Stdlib Require Import ZArith List Lia Bool.
From stdpp Require Import base option list gmap.

Open Scope Z_scope.

(** ** Platform constants *)

Definition size_max : Z := 2 ^ 64.
Definition sizeof_size_t : Z := 8.
Definition sizeof_Segment : Z := 16.
Definition NULL : Z := 0.

(** Conversion of an integer result to [size_t]. *)
Definition to_size_t (n : Z) : Z := n mod size_max.

Definition in_size_t (n : Z) : Prop := 0 <= n < size_max.

(** ** The allocator interface *)

Class BaseAllocator (B : Type) := {
  base_allocate : Z -> B -> Z * B;
  base_deallocate : Z -> Z -> B -> B
}.

(** ** Memory *)

Record Segment := { next : Z; size : Z }.

Inductive event :=
| Allocated (pointer : Z) (bytes : Z)
| Released (pointer : Z) (bytes : Z).

Record world := {
  headers : gmap Z Segment;
  bytes : Z -> Byte.byte;
  calls : list event
}.

Definition log (e : event) (w : world) : world :=
  {| headers := headers w; bytes := bytes w; calls := calls w ++ [e] |}.

(** [s->next] and [s->size]: the header at [s] must have been written. *)
Definition load (s : Z) (w : world) : option Segment := headers w !! s.

(** Writing the header at [s]. *)
Definition store (s : Z) (h : Segment) (w : world) : option world :=
  if s =? NULL then None
  else Some {| headers := <[s := h]> (headers w); bytes := bytes w; calls := calls w |}.

(** [s->next = n], the other field kept. *)
Definition store_next (s n : Z) (w : world) : option world :=
  h ← load s w; store s {| next := n; size := size h |} w.

Definition overlap (p q n : Z) : bool := (p <? q + n) && (q <? p + n).

(** [memcpy(dst, src, n)]: undefined when the two ranges overlap. *)
Definition memcpy (dst src n : Z) (w : world) : option world :=
  if overlap dst src n then None
  else Some {| headers := headers w;
               bytes := fun x => if (dst <=? x) && (x <? dst + n)
                                 then bytes w (src + (x - dst)) else bytes w x;
               calls := calls w |}.

(** The blocks requested from, and given back to, the backing allocator. *)
Fixpoint requests (l : list event) : list (Z * Z) :=
  match l with
  | [] => []
  | Allocated p n :: l => (p, n) :: requests l
  | Released _ _ :: l => requests l
  end.

Fixpoint releases (l : list event) : list (Z * Z) :=
  match l with
  | [] => []
  | Allocated _ _ :: l => releases l
  | Released p n :: l => (p, n) :: releases l
  end.

(** ** shared_allocator *)

Module Shared.

(** [base_allocator &base]: the address of the instance referred to. *)
Record shared_allocator := { base : Z }.

Definition shared_allocator_new (b : Z) : shared_allocator := {| base := b |}.

Definition allocate `{BaseAllocator B} (size : Z) (this : shared_allocator)
           (pool : gmap Z B) : option (Z * gmap Z B) :=
  b ← pool !! base this;
  let '(p, b') := base_allocate size b in
  Some (p, <[base this := b']> pool).

Definition deallocate `{BaseAllocator B} (pointer size : Z) (this : shared_allocator)
           (pool : gmap Z B) : option (gmap Z B) :=
  b ← pool !! base this;
  Some (<[base this := base_deallocate pointer size b]> pool).

(** [operator =]: returns [*this]. *)
Definition assign (this a2 : shared_allocator) : shared_allocator := this.

(** [operator ==]: [&left.base == &right.base]. *)
Definition eq (left right : shared_allocator) : bool := base left =? base right.

(** [operator !=]. *)
Definition ne (left right : shared_allocator) : bool := negb (eq left right).

End Shared.

(** ** arena_allocator *)

Section Arena.

Variable segmentsize : Z.
Context {B : Type} `{BaseAllocator B}.

(** The object: the inherited [base_allocator] subobject and the two
    private fields. *)
Record arena_allocator := {
  base : B;
  segment : Z;
  allocated : Z
}.

Definition arena_allocator_new (b : B) : arena_allocator :=
  {| base := b; segment := NULL; allocated := 0 |}.

Definition arena_size : Z := to_size_t (segmentsize - sizeof_Segment).

(** [if (size % sizeof(size_t)) size = (size/sizeof(size_t)+1)*sizeof(size_t);] *)
Definition round_size (size : Z) : Z :=
  if size mod sizeof_size_t =? 0 then size
  else to_size_t ((size / sizeof_size_t + 1) * sizeof_size_t).

(** [base_allocator::allocate(n)] *)
Definition call_allocate (n : Z) (a : arena_allocator) (w : world)
  : Z * arena_allocator * world :=
  let '(p, b) := base_allocate n (base a) in
  (p, {| base := b; segment := segment a; allocated := allocated a |},
   log (Allocated p n) w).

(** [base_allocator::deallocate(p, n)] *)
Definition call_deallocate (p n : Z) (b : B) (w : world) : B * world :=
  (base_deallocate p n b, log (Released p n) w).

Definition allocate (size : Z) (a : arena_allocator) (w : world)
  : option (Z * arena_allocator * world) :=
  let size := round_size size in
  if negb (segment a =? NULL) && (arena_size <=? size) then
    let '(new_segment, a, w) := call_allocate (to_size_t (sizeof_Segment + size)) a w in
    h ← load (segment a) w;
    w ← store new_segment {| next := next h; size := to_size_t (sizeof_Segment + size) |} w;
    w ← store_next (segment a) new_segment w;
    Some (new_segment + sizeof_Segment, a, w)
  else if (segment a =? NULL) || (arena_size <? to_size_t (allocated a + size)) then
    let '(new_segment, a, w) := call_allocate segmentsize a w in
    w ← store new_segment {| next := segment a; size := segmentsize |} w;
    Some (new_segment + sizeof_Segment,
          {| base := base a; segment := new_segment; allocated := size |}, w)
  else
    Some (segment a + sizeof_Segment + allocated a,
          {| base := base a; segment := segment a;
             allocated := to_size_t (allocated a + size) |}, w).

(** No deallocation. *)
Definition deallocate (pointer size : Z) (a : arena_allocator) (w : world)
  : arena_allocator * world := (a, w).

Definition reallocate (newsize pointer size : Z) (a : arena_allocator) (w : world)
  : option (Z * arena_allocator * world) :=
  if newsize <=? size then Some (pointer, a, w)
  else
    '(ret, a, w) ← allocate newsize a w;
    w ← memcpy ret pointer size w;
    Some (ret, a, w).

(** [operator =]: returns [*this]. *)
Definition assign (this a2 : arena_allocator) : arena_allocator := this.

(** The loop of the destructor; [fuel] bounds the number of iterations. *)
Fixpoint release_chain (fuel : nat) (s : Z) (b : B) (w : world) : option (B * world) :=
  if s =? NULL then Some (b, w)
  else match fuel with
       | O => None
       | S fuel =>
           h ← load s w;
           let '(b, w) := call_deallocate s (size h) b w in
           release_chain fuel (next h) b w
       end.

Definition destroy (fuel : nat) (a : arena_allocator) (w : world) : option (B * world) :=
  release_chain fuel (segment a) (base a) w.

End Arena.

Arguments arena_allocator B : clear implicits.

(** ** A backing allocator for concrete runs

    It hands out consecutive blocks, each a multiple of 16 bytes, and keeps
    nothing on release. *)

#[export] Instance bump_pool : BaseAllocator Z := {|
  base_allocate n b := (b, b + 16 * (n / 16 + 1));
  base_deallocate _ _ b := b
|}.

Definition empty_world : world :=
  {| headers := ∅; bytes := fun _ => Byte.x00; calls := [] |}.

(** ** Sequences of calls *)

Section Runs.

Variable segmentsize : Z.
Context {B : Type} `{BaseAllocator B}.

(** The states of an arena: constructed over [b] before any call has
    reached the backing allocator, then taken through calls of its three
    operations with [size_t] arguments, none of which runs into undefined
    behaviour; in between the client writes payload bytes. *)
Inductive reachable : arena_allocator B -> world -> Prop :=
| reach_new b w :
    calls w = [] ->
    reachable (arena_allocator_new b) w
| reach_allocate a w size p a' w' :
    reachable a w -> in_size_t size ->
    allocate segmentsize size a w = Some (p, a', w') ->
    reachable a' w'
| reach_deallocate a w pointer size a' w' :
    reachable a w -> in_size_t size ->
    deallocate pointer size a w = (a', w') ->
    reachable a' w'
| reach_reallocate a w newsize pointer size p a' w' :
    reachable a w -> in_size_t newsize -> in_size_t size ->
    reallocate segmentsize newsize pointer size a w = Some (p, a', w') ->
    reachable a' w'
| reach_write a w payload :
    reachable a w ->
    reachable a {| headers := headers w; bytes := payload; calls := calls w |}.

(** Consecutive [allocate] calls; the pointers returned, in call order. *)
Fixpoint allocate_all (sizes : list Z) (a : arena_allocator B) (w : world)
  : option (list Z * arena_allocator B * world) :=
  match sizes with
  | [] => Some ([], a, w)
  | size :: sizes =>
      '(p, a, w) ← allocate segmentsize size a w;
      '(ps, a, w) ← allocate_all sizes a w;
      Some (p :: ps, a, w)
  end.

End Runs.

(** ** The segment chain in memory *)

(** [chain w s l]: following [next] from [s] reaches [NULL], and [l] lists
    the address and the recorded size of the segments met on the way. *)
Inductive chain (w : world) : Z -> list (Z * Z) -> Prop :=
| chain_end : chain w NULL []
| chain_link s h l :
    s <> NULL -> load s w = Some h -> chain w (next h) l ->
    chain w s ((s, size h) :: l).

(** ** Regions *)

(** A region or a block is a pair of its address and its length. *)
Definition disjoint (r1 r2 : Z * Z) : Prop :=
  r1.1 + r1.2 <= r2.1 \/ r2.1 + r2.2 <= r1.1.

(** [R] holds of every element and each later one. *)
Fixpoint pairwise {A : Type} (R : A -> A -> Prop) (l : list A) : Prop :=
  match l with
  | [] => True
  | x :: l => Forall (R x) l /\ pairwise R l
  end.

(** The pointer points into the data area of the block, past its header
    and at most at its end. *)
Definition in_data (b : Z * Z) (p : Z) : Prop :=
  b.1 + sizeof_Segment <= p <= b.1 + b.2.

(** The region starts in the data area of one of the blocks and ends
    within that block. *)
Definition inside (blocks : list (Z * Z)) (r : Z * Z) : Prop :=
  Exists (fun b => in_data b r.1 /\ r.1 + r.2 <= b.1 + b.2) blocks.

(** Both pointers point into the data area of the same block. *)
Definition same_segment (blocks : list (Z * Z)) (p q : Z) : Prop :=
  Exists (fun b => in_data b p /\ in_data b q) blocks.

(** Within one segment the earlier allocation, with its rounded size, ends
    before the later one starts. *)
Definition ordered (blocks : list (Z * Z)) (r1 r2 : Z * Z) : Prop :=
  same_segment blocks r1.1 r2.1 -> r1.1 + round_size r1.2 <= r2.1.

Definition aligned (p : Z) : Prop := p mod sizeof_size_t = 0.

(** ** The layout invariant of consecutive allocations *)

Section Layout.

Variable segmentsize : Z.
Variable extent : Z -> Z.
Context {B : Type} `{BaseAllocator B}.

(** The bytes of a request [(p, size)] that are accounted to it. *)
Definition region (r : Z * Z) : Z * Z := (r.1, extent r.2).

(** [R] lists the pointers returned so far with the sizes asked for. *)
Record tidy (a : arena_allocator B) (w : world) (R : list (Z * Z)) : Prop := {
  tidy_head :
    segment a <> NULL ->
    In (segment a, segmentsize) (requests (calls w)) /\
    is_Some (load (segment a) w) /\
    0 <= allocated a <= arena_size segmentsize + sizeof_size_t;
  tidy_inside :
    Forall (fun r => inside (requests (calls w)) (region r) /\
                     extent r.2 <= round_size r.2) R;
  tidy_cursor :
    Forall (fun r => in_data (segment a, segmentsize) r.1 ->
                     r.1 + round_size r.2 <= segment a + sizeof_Segment + allocated a) R;
  tidy_apart :
    pairwise (fun r1 r2 => disjoint (region r1) (region r2) /\
                           ordered (requests (calls w)) r1 r2) R
}.

End Layout.

(** ** Concrete states

    An arena with 64-byte segments over [bump_pool], which starts handing
    out blocks at address 4096. *)

(** After [allocate(16)] on the fresh arena. *)
Definition arena_one : arena_allocator Z :=
  {| base := 4176; segment := 4096; allocated := 16 |}.

Definition world_one : world :=
  {| headers := <[4096 := {| next := NULL; size := 64 |}]> ∅;
     bytes := fun _ => Byte.x00;
     calls := [Allocated 4096 64] |}.

(** After a further [allocate(32)]: the head segment is full. *)
Definition arena_full : arena_allocator Z :=
  {| base := 4176; segment := 4096; allocated := 48 |}.

(** After [allocate(16)] and [allocate(1000)]: the head and a dedicated
    segment. *)
Definition arena_two : arena_allocator Z :=
  {| base := 5200; segment := 4096; allocated := 16 |}.

Definition world_two : world :=
  {| headers := <[4096 := {| next := 4176; size := 64 |}]>
                  (<[4176 := {| next := NULL; size := 1016 |}]>
                     (<[4096 := {| next := NULL; size := 64 |}]> ∅));
     bytes := fun _ => Byte.x00;
     calls := [Allocated 4096 64; Allocated 4176 1016] |}.

(** After four times [allocate(16)]: three regions in the first segment,
    the fourth in a new head. *)
Definition arena_four : arena_allocator Z :=
  {| base := 4256; segment := 4176; allocated := 16 |}.

Definition world_four : world :=
  {| headers := <[4176 := {| next := 4096; size := 64 |}]>
                  (<[4096 := {| next := NULL; size := 64 |}]> ∅);
     bytes := fun _ => Byte.x00;
     calls := [Allocated 4096 64; Allocated 4176 64] |}.

(** ** Layout of a packed segment *)

(** The bytes a sequence of requests takes from a segment: the sum of the
    rounded sizes. *)
Fixpoint total_rounded (sizes : list Z) : Z :=
  match sizes with
  | [] => 0
  | size :: sizes => round_size size + total_rounded sizes
  end.

(** The addresses of regions laid out back to back from [p], each taking
    its rounded size. *)
Fixpoint bump_from (p : Z) (sizes : list Z) : list Z :=
  match sizes with
  | [] => []
  | size :: sizes => p :: bump_from (p + round_size size) sizes
  end.

(** ** A backing allocator that hands out one block over and over *)

#[export] Instance stuck_pool : BaseAllocator unit := {|
  base_allocate _ _ := (4096, tt);
  base_deallocate _ _ _ := tt
|}.


(** After [allocate(1000)] on the fresh arena: one 64-byte segment, the
    cursor at 1000. *)
Definition arena_overrun : arena_allocator Z :=
  {| base := 4176; segment := 4096; allocated := 1000 |}.

(** An arena with the default 64 KiB segments whose cursor is close to the
    end of the [size_t] range. *)
Definition arena_wrapping : arena_allocator Z :=
  {| base := 4176; segment := 4096; allocated := 2 ^ 64 - 8192 |}.

(** ** The destructor, iteration by iteration *)

Section Iterations.

Context {B : Type} `{BaseAllocator B}.



End Iterations.

(** ** Arithmetic of [size_t] *)

Lemma to_size_t_small n : in_size_t n -> to_size_t n = n.
Proof. intros Hn. apply Z.mod_small. exact Hn. Qed.

Lemma to_size_t_range n : in_size_t (to_size_t n).
Proof. apply Z.mod_pos_bound. reflexivity. Qed.

Lemma to_size_t_multiple n : n mod sizeof_size_t = 0 -> to_size_t n mod sizeof_size_t = 0.
Proof.
  unfold to_size_t, size_max, sizeof_size_t. intros Hn.
  rewrite Z.mod_mod_divide; [exact Hn |].
  exists (2 ^ 61). reflexivity.
Qed.

Lemma round_size_range n : in_size_t n -> in_size_t (round_size n).
Proof.
  intros Hn. unfold round_size.
  destruct (n mod sizeof_size_t =? 0); [exact Hn | apply to_size_t_range].
Qed.

Lemma round_size_multiple n : round_size n mod sizeof_size_t = 0.
Proof.
  unfold round_size. destruct (n mod sizeof_size_t =? 0) eqn:E.
  - apply Z.eqb_eq in E. exact E.
  - apply to_size_t_multiple. apply Z.mod_mul. discriminate.
Qed.

(** Away from the top of the range the rounding is the exact one. *)
Lemma round_size_exact n :
  0 <= n -> n + sizeof_size_t <= size_max ->
  n <= round_size n < n + sizeof_size_t.
Proof.
  unfold round_size, to_size_t, size_max, sizeof_size_t. intros H0 Hn.
  destruct (n mod 8 =? 0) eqn:E; [lia |].
  apply Z.eqb_neq in E.
  pose proof (Z.div_mod n 8 ltac:(lia)) as Hd.
  pose proof (Z.mod_pos_bound n 8 ltac:(lia)) as Hm.
  rewrite Z.mod_small; lia.
Qed.

Lemma round_size_fixed n : n mod sizeof_size_t = 0 -> round_size n = n.
Proof. unfold round_size. intros ->. reflexivity. Qed.

(** ** One call of [allocate], branch by branch *)

Section Steps.

Variable segmentsize : Z.
Context {B : Type} `{BaseAllocator B}.

Local Abbreviation arena_size := (arena_size segmentsize).
Local Abbreviation allocate := (allocate segmentsize).
Local Abbreviation reallocate := (reallocate segmentsize).

(** The dedicated segment of a large request, spliced in after the head. *)
Lemma allocate_large sz (a : arena_allocator B) w h new_segment b :
  segment a <> NULL ->
  arena_size <= round_size sz ->
  load (segment a) w = Some h ->
  base_allocate (to_size_t (sizeof_Segment + round_size sz)) (base a) = (new_segment, b) ->
  new_segment <> NULL ->
  new_segment <> segment a ->
  allocate sz a w =
    Some (new_segment + sizeof_Segment,
          {| base := b; segment := segment a; allocated := allocated a |},
          {| headers :=
               <[segment a := {| next := new_segment; size := size h |}]>
                 (<[new_segment := {| next := next h;
                                      size := to_size_t (sizeof_Segment + round_size sz) |}]>
                    (headers w));
             bytes := bytes w;
             calls := calls w ++ [Allocated new_segment
                                    (to_size_t (sizeof_Segment + round_size sz))] |}).
Proof.
  intros Hseg Hbig Hh Hb Hnew Hne.
  unfold allocate, call_allocate.
  apply Z.eqb_neq in Hseg. rewrite Hseg. apply Z.leb_le in Hbig. rewrite Hbig.
  cbn [negb andb]. rewrite Hb. cbn [segment]. unfold load in *. cbn [log headers].
  rewrite Hh. cbn [mbind option_bind]. unfold store at 1.
  apply Z.eqb_neq in Hnew. rewrite Hnew. cbn [mbind option_bind].
  unfold store_next, load. cbn [headers].
  rewrite lookup_insert_ne by congruence. unfold log. cbn [headers bytes calls].
  rewrite Hh. cbn [mbind option_bind].
  unfold store. rewrite Hseg. reflexivity.
Qed.

(** A new head segment. *)
Lemma allocate_new_head sz (a : arena_allocator B) w new_segment b :
  (segment a = NULL \/
   (round_size sz < arena_size /\
    arena_size < to_size_t (allocated a + round_size sz))) ->
  base_allocate segmentsize (base a) = (new_segment, b) ->
  new_segment <> NULL ->
  allocate sz a w =
    Some (new_segment + sizeof_Segment,
          {| base := b; segment := new_segment; allocated := round_size sz |},
          {| headers := <[new_segment := {| next := segment a; size := segmentsize |}]>
                          (headers w);
             bytes := bytes w;
             calls := calls w ++ [Allocated new_segment segmentsize] |}).
Proof.
  intros Hcase Hb Hnew.
  unfold allocate, call_allocate.
  assert (negb (segment a =? NULL) && (arena_size <=? round_size sz) = false) as ->.
  { destruct Hcase as [-> | [Hlt _]]; [reflexivity |].
    apply andb_false_iff. right. apply Z.leb_gt. exact Hlt. }
  assert ((segment a =? NULL) || (arena_size <? to_size_t (allocated a + round_size sz))
          = true) as ->.
  { destruct Hcase as [-> | [_ Hlt]]; [reflexivity |].
    apply orb_true_iff. right. apply Z.ltb_lt. exact Hlt. }
  rewrite Hb. cbn [segment base]. unfold store. cbn [log headers bytes calls].
  apply Z.eqb_neq in Hnew. rewrite Hnew. reflexivity.
Qed.

(** The bump of the cursor. *)
Lemma allocate_bump sz (a : arena_allocator B) w :
  segment a <> NULL ->
  round_size sz < arena_size ->
  to_size_t (allocated a + round_size sz) <= arena_size ->
  allocate sz a w =
    Some (segment a + sizeof_Segment + allocated a,
          {| base := base a; segment := segment a;
             allocated := to_size_t (allocated a + round_size sz) |}, w).
Proof.
  intros Hseg Hsmall Hfit.
  unfold allocate.
  apply Z.eqb_neq in Hseg. rewrite Hseg.
  apply Z.leb_gt in Hsmall. rewrite Hsmall.
  apply Z.ltb_ge in Hfit. rewrite Hfit. reflexivity.
Qed.

End Steps.

(** ** The three branches, read back from a result *)

Section Inversion.

Variable segmentsize : Z.
Context {B : Type} `{BaseAllocator B}.

Local Abbreviation arena_size := (arena_size segmentsize).
Local Abbreviation allocate := (allocate segmentsize).

Lemma allocate_inv sz (a : arena_allocator B) w p a' w' :
  allocate sz a w = Some (p, a', w') ->
  (segment a <> NULL /\ arena_size <= round_size sz /\
   exists new_segment b h h',
     base_allocate (to_size_t (sizeof_Segment + round_size sz)) (base a)
       = (new_segment, b) /\
     new_segment <> NULL /\
     load (segment a) w = Some h /\
     (if decide (new_segment = segment a)
      then h' = {| next := next h; size := to_size_t (sizeof_Segment + round_size sz) |}
      else h' = h) /\
     p = new_segment + sizeof_Segment /\
     a' = {| base := b; segment := segment a; allocated := allocated a |} /\
     w' = {| headers :=
               <[segment a := {| next := new_segment; size := size h' |}]>
                 (<[new_segment :=
                      {| next := next h;
                         size := to_size_t (sizeof_Segment + round_size sz) |}]>
                    (headers w));
             bytes := bytes w;
             calls := calls w ++ [Allocated new_segment
                                    (to_size_t (sizeof_Segment + round_size sz))] |})
  \/
  ((segment a = NULL \/
    (round_size sz < arena_size /\
     arena_size < to_size_t (allocated a + round_size sz))) /\
   exists new_segment b,
     base_allocate segmentsize (base a) = (new_segment, b) /\
     new_segment <> NULL /\
     p = new_segment + sizeof_Segment /\
     a' = {| base := b; segment := new_segment; allocated := round_size sz |} /\
     w' = {| headers := <[new_segment := {| next := segment a; size := segmentsize |}]>
                          (headers w);
             bytes := bytes w;
             calls := calls w ++ [Allocated new_segment segmentsize] |})
  \/
  (segment a <> NULL /\ round_size sz < arena_size /\
   to_size_t (allocated a + round_size sz) <= arena_size /\
   p = segment a + sizeof_Segment + allocated a /\
   a' = {| base := base a; segment := segment a;
           allocated := to_size_t (allocated a + round_size sz) |} /\
   w' = w).
Proof.
  unfold allocate, call_allocate.
  destruct (segment a =? NULL) eqn:Hseg;
    [apply Z.eqb_eq in Hseg | apply Z.eqb_neq in Hseg]; cbn [negb andb orb].
  - (* no head segment *)
    destruct (base_allocate segmentsize (base a)) as [ns b] eqn:Hb.
    cbn [segment base]. unfold store. cbn [log headers bytes calls].
    destruct (ns =? NULL) eqn:Hns; [discriminate |]. apply Z.eqb_neq in Hns.
    cbn [mbind option_bind]. intros [= <- <- <-].
    right. left. split; [left; exact Hseg |].
    exists ns, b. repeat split; assumption.
  - destruct (arena_size <=? round_size sz) eqn:Hbig;
      [apply Z.leb_le in Hbig | apply Z.leb_gt in Hbig].
    + (* large request *)
      destruct (base_allocate _ (base a)) as [ns b] eqn:Hb.
      cbn [segment]. unfold load, log. cbn [headers bytes calls].
      destruct (headers w !! segment a) as [h|] eqn:Hh; [| discriminate].
      cbn [mbind option_bind]. unfold store at 1.
      destruct (ns =? NULL) eqn:Hns; [discriminate |]. apply Z.eqb_neq in Hns.
      cbn [mbind option_bind]. unfold store_next, load. cbn [headers].
      destruct (decide (ns = segment a)) as [Heq | Hne].
      * rewrite Heq at 1. rewrite lookup_insert_eq. cbn [mbind option_bind].
        unfold store. apply Z.eqb_neq in Hseg. rewrite Hseg.
        cbn [headers bytes calls size]. intros [= <- <- <-].
        left. apply Z.eqb_neq in Hseg. split; [exact Hseg |]. split; [exact Hbig |].
        eexists ns, b, h, _. rewrite decide_True by exact Heq.
        repeat split; try assumption; reflexivity.
      * rewrite lookup_insert_ne by exact Hne. rewrite Hh. cbn [mbind option_bind].
        unfold store. apply Z.eqb_neq in Hseg. rewrite Hseg.
        cbn [headers bytes calls size]. intros [= <- <- <-].
        left. apply Z.eqb_neq in Hseg. split; [exact Hseg |]. split; [exact Hbig |].
        eexists ns, b, h, _. rewrite decide_False by exact Hne.
        repeat split; try assumption; reflexivity.
    + destruct (arena_size <? to_size_t (allocated a + round_size sz)) eqn:Hfit;
        [apply Z.ltb_lt in Hfit | apply Z.ltb_ge in Hfit].
      * (* the head is exhausted *)
        destruct (base_allocate segmentsize (base a)) as [ns b] eqn:Hb.
        cbn [segment base]. unfold store. cbn [log headers bytes calls].
        destruct (ns =? NULL) eqn:Hns; [discriminate |]. apply Z.eqb_neq in Hns.
        cbn [mbind option_bind]. intros [= <- <- <-].
        right. left. split; [right; split; assumption |].
        exists ns, b. repeat split; assumption.
      * (* bump *)
        intros [= <- <- <-]. right. right. repeat split; assumption.
Qed.

(** What a call leaves alone, whichever branch it takes. *)
Lemma allocate_frame sz (a : arena_allocator B) w p a' w' :
  allocate sz a w = Some (p, a', w') ->
  bytes w' = bytes w /\
  (calls w' = calls w \/ exists q n, calls w' = calls w ++ [Allocated q n]).
Proof.
  intros Ha. apply allocate_inv in Ha.
  destruct Ha as [(_ & _ & ns & b & h & h' & _ & _ & _ & _ & _ & _ & ->)
                 |[(_ & ns & b & _ & _ & _ & _ & ->)
                  |(_ & _ & _ & _ & _ & ->)]]; cbn [bytes calls]; eauto.
Qed.

(** A call succeeds when the head's header is readable and the backing
    allocator does not answer [NULL]. *)
Lemma allocate_succeeds sz (a : arena_allocator B) w :
  (segment a <> NULL -> is_Some (load (segment a) w)) ->
  (forall n, (base_allocate n (base a)).1 <> NULL) ->
  is_Some (allocate sz a w).
Proof.
  intros Hhead Hbase. unfold allocate, call_allocate.
  destruct (segment a =? NULL) eqn:Hseg;
    [apply Z.eqb_eq in Hseg | apply Z.eqb_neq in Hseg]; cbn [negb andb orb].
  - specialize (Hbase segmentsize).
    destruct (base_allocate segmentsize (base a)) as [ns b]. cbn [fst] in Hbase.
    unfold store. apply Z.eqb_neq in Hbase. rewrite Hbase. cbn. eauto.
  - destruct (arena_size <=? round_size sz).
    + specialize (Hbase (to_size_t (sizeof_Segment + round_size sz))).
      destruct (base_allocate _ (base a)) as [ns b]. cbn [fst] in Hbase.
      destruct (Hhead Hseg) as [h Hh]. unfold load, log in *. cbn [segment headers].
      rewrite Hh. cbn [mbind option_bind]. unfold store at 1.
      pose proof Hbase as Hns. apply Z.eqb_neq in Hns. rewrite Hns.
      cbn [mbind option_bind]. unfold store_next, load, store. cbn [headers].
      pose proof Hseg as Hs. apply Z.eqb_neq in Hs. rewrite Hs.
      destruct (decide (ns = segment a)) as [Heq | Hne].
      * rewrite Heq at 1. rewrite lookup_insert_eq. cbn. eauto.
      * rewrite lookup_insert_ne by exact Hne. rewrite Hh. cbn. eauto.
    + destruct (arena_size <? to_size_t (allocated a + round_size sz)); [| eauto].
      specialize (Hbase segmentsize).
      destruct (base_allocate segmentsize (base a)) as [ns b]. cbn [fst] in Hbase.
      unfold store. apply Z.eqb_neq in Hbase. rewrite Hbase. cbn. eauto.
Qed.

End Inversion.

(** ** Single calls *)

Section Calls.

Variable segmentsize : Z.
Context {B : Type} `{BaseAllocator B}.

Local Abbreviation arena_size := (arena_size segmentsize).
Local Abbreviation allocate := (allocate segmentsize).
Local Abbreviation reallocate := (reallocate segmentsize).

(** C2.  With a head segment present and a rounded size at or above
    [arena_size()], [allocate] asks the backing allocator for
    [sizeof(Segment) + size] bytes (a [size_t] sum, the exact sum whenever
    that fits [size_t]), writes that number into the header of the block
    it gets, links the block right after the head, whose own size and
    address stay, and returns the address just past the new header. *)
Theorem large_request_gets_dedicated_segment
        sz (a : arena_allocator B) w h new_segment b :
  segment a <> NULL ->
  arena_size <= round_size sz ->
  load (segment a) w = Some h ->
  base_allocate (to_size_t (sizeof_Segment + round_size sz)) (base a) = (new_segment, b) ->
  new_segment <> NULL ->
  new_segment <> segment a ->
  exists a' w',
    allocate sz a w = Some (new_segment + sizeof_Segment, a', w') /\
    calls w' = calls w ++
               [Allocated new_segment (to_size_t (sizeof_Segment + round_size sz))] /\
    (sizeof_Segment + round_size sz < size_max ->
     0 <= round_size sz ->
     to_size_t (sizeof_Segment + round_size sz) = sizeof_Segment + round_size sz) /\
    load new_segment w' =
      Some {| next := next h; size := to_size_t (sizeof_Segment + round_size sz) |} /\
    load (segment a) w' = Some {| next := new_segment; size := size h |} /\
    (forall s, s <> new_segment -> s <> segment a -> load s w' = load s w) /\
    segment a' = segment a /\
    base a' = b.
Proof.
  intros Hseg Hbig Hh Hb Hnew Hne.
  eexists _, _. split; [apply (allocate_large _ _ _ _ h new_segment b); assumption |].
  unfold load. cbn [calls headers segment base].
  split; [reflexivity |]. split.
  { intros Hfit Hpos. apply to_size_t_small. unfold in_size_t, sizeof_Segment in *. lia. }
  split. { rewrite lookup_insert_ne by congruence. apply lookup_insert_eq. }
  split. { apply lookup_insert_eq. }
  split; [| split; reflexivity].
  intros s Hs1 Hs2. rewrite !lookup_insert_ne by congruence. reflexivity.
Qed.

(** C6.  Below the large-request threshold, with no head segment or with
    the cursor plus the rounded size (the [size_t] sum the code compares)
    above [arena_size()], [allocate] obtains [segmentsize] bytes, makes
    the block the head with the old head as its [next], sets the cursor
    to the rounded size and returns the start of the block's data. *)
Theorem exhausted_head_gets_new_segment
        sz (a : arena_allocator B) w new_segment b :
  round_size sz < arena_size ->
  segment a = NULL \/ arena_size < to_size_t (allocated a + round_size sz) ->
  base_allocate segmentsize (base a) = (new_segment, b) ->
  new_segment <> NULL ->
  exists a' w',
    allocate sz a w = Some (new_segment + sizeof_Segment, a', w') /\
    calls w' = calls w ++ [Allocated new_segment segmentsize] /\
    load new_segment w' = Some {| next := segment a; size := segmentsize |} /\
    (forall s, s <> new_segment -> load s w' = load s w) /\
    segment a' = new_segment /\
    allocated a' = round_size sz /\
    base a' = b.
Proof.
  intros Hsmall Hcase Hb Hnew.
  eexists _, _. split.
  { apply (allocate_new_head _ _ _ _ new_segment b); [tauto | assumption ..]. }
  unfold load. cbn [calls headers segment allocated base].
  split; [reflexivity |]. split; [apply lookup_insert_eq |].
  split; [| repeat split].
  intros s Hs. rewrite lookup_insert_ne by congruence. reflexivity.
Qed.

End Calls.

Section MoreCalls.

Variable segmentsize : Z.
Context {B : Type} `{BaseAllocator B}.

Local Abbreviation arena_size := (arena_size segmentsize).
Local Abbreviation allocate := (allocate segmentsize).
Local Abbreviation reallocate := (reallocate segmentsize).

(** C7.  A large request served while a head segment exists leaves the
    head pointer and the cursor as they were; the next small request that
    fits is therefore served at the old cursor, the address it would have
    got had the large request never been made. *)
Theorem large_request_keeps_cursor
        sz (a : arena_allocator B) w h new_segment b :
  segment a <> NULL ->
  arena_size <= round_size sz ->
  load (segment a) w = Some h ->
  base_allocate (to_size_t (sizeof_Segment + round_size sz)) (base a) = (new_segment, b) ->
  new_segment <> NULL ->
  new_segment <> segment a ->
  exists a' w',
    allocate sz a w = Some (new_segment + sizeof_Segment, a', w') /\
    segment a' = segment a /\
    allocated a' = allocated a /\
    forall sz2,
      round_size sz2 < arena_size ->
      to_size_t (allocated a + round_size sz2) <= arena_size ->
      exists a2 a2',
        allocate sz2 a w = Some (segment a + sizeof_Segment + allocated a, a2, w) /\
        allocate sz2 a' w' = Some (segment a + sizeof_Segment + allocated a, a2', w') /\
        segment a2' = segment a /\
        allocated a2' = allocated a2.
Proof.
  intros Hseg Hbig Hh Hb Hnew Hne.
  eexists _, _. split; [apply (allocate_large _ _ _ _ h new_segment b); assumption |].
  cbn [segment allocated]. split; [reflexivity |]. split; [reflexivity |].
  intros sz2 Hsmall Hfit. eexists _, _.
  split; [apply allocate_bump; assumption |].
  split.
  { exact (allocate_bump segmentsize sz2
             {| base := b; segment := segment a; allocated := allocated a |}
             _ Hseg Hsmall Hfit). }
  split; reflexivity.
Qed.

(** Growing, once the fresh allocation is known: the copy. *)
Lemma reallocate_grow newsize pointer sz (a : arena_allocator B) w ret a' w1 :
  sz < newsize ->
  allocate newsize a w = Some (ret, a', w1) ->
  disjoint (ret, sz) (pointer, sz) ->
  exists w2,
    reallocate newsize pointer sz a w = Some (ret, a', w2) /\
    (forall i, 0 <= i < sz -> bytes w2 (ret + i) = bytes w (pointer + i)) /\
    (forall i, 0 <= i < sz -> bytes w2 (pointer + i) = bytes w (pointer + i)) /\
    releases (calls w2) = releases (calls w) /\
    headers w2 = headers w1 /\ calls w2 = calls w1.
Proof.
  intros Hlt Ha Hfresh. unfold disjoint in Hfresh. cbn [fst snd] in Hfresh.
  destruct (allocate_frame _ _ _ _ _ _ _ Ha) as [Hbytes Hcalls].
  assert (overlap ret pointer sz = false) as Hov.
  { unfold overlap. apply andb_false_iff. rewrite !Z.ltb_ge. lia. }
  eexists. split.
  { unfold reallocate. apply Z.leb_gt in Hlt. rewrite Hlt. rewrite Ha.
    cbn [mbind option_bind]. unfold memcpy. rewrite Hov. reflexivity. }
  cbn [bytes calls headers]. rewrite Hbytes.
  split.
  { intros i Hi.
    assert ((ret <=? ret + i) && (ret + i <? ret + sz) = true) as ->.
    { apply andb_true_iff. rewrite Z.leb_le, Z.ltb_lt. lia. }
    f_equal. lia. }
  split.
  { intros i Hi.
    assert ((ret <=? pointer + i) && (pointer + i <? ret + sz) = false) as ->.
    { apply andb_false_iff. rewrite Z.leb_gt, Z.ltb_ge. lia. }
    reflexivity. }
  split; [| split; reflexivity].
  destruct Hcalls as [-> | (q & n & ->)]; [reflexivity |].
  clear. induction (calls w) as [| [? ?|? ?] l IH]; cbn; congruence.
Qed.

(** [reallocate] on a live region, one that the fresh allocation does not
    overlap.  Shrinking (or keeping the size) returns the pointer and
    touches nothing.  Growing allocates afresh and copies: the first [sz]
    bytes of the new region are the bytes that were at [pointer], which are
    still there, nothing is given back to the backing allocator, and the
    arena and the headers are those the allocation alone produces. *)
Theorem reallocate_keeps_or_copies
        newsize pointer sz (a : arena_allocator B) w :
  (segment a <> NULL -> is_Some (load (segment a) w)) ->
  (forall n, (base_allocate n (base a)).1 <> NULL) ->
  (forall ret a' w', allocate newsize a w = Some (ret, a', w') ->
                     disjoint (ret, sz) (pointer, sz)) ->
  (newsize <= sz -> reallocate newsize pointer sz a w = Some (pointer, a, w)) /\
  (sz < newsize ->
   exists ret a' w1 w2,
     allocate newsize a w = Some (ret, a', w1) /\
     reallocate newsize pointer sz a w = Some (ret, a', w2) /\
     (forall i, 0 <= i < sz -> bytes w2 (ret + i) = bytes w (pointer + i)) /\
     (forall i, 0 <= i < sz -> bytes w2 (pointer + i) = bytes w (pointer + i)) /\
     releases (calls w2) = releases (calls w) /\
     headers w2 = headers w1 /\ calls w2 = calls w1).
Proof.
  intros Hhead Hbase Hfresh. split.
  - intros Hle. unfold reallocate. apply Z.leb_le in Hle. rewrite Hle. reflexivity.
  - intros Hlt.
    destruct (allocate_succeeds segmentsize newsize a w Hhead Hbase) as [[[ret a'] w1] Ha].
    destruct (reallocate_grow _ _ _ _ _ _ _ _ Hlt Ha (Hfresh _ _ _ Ha)) as [w2 Hw2].
    exists ret, a', w1, w2. split; [exact Ha | exact Hw2].
Qed.

(** C9.  Assignment changes nothing in either wrapper: a shared allocator
    keeps the instance it refers to, and an arena keeps its backing
    allocator, its head pointer (hence its chain) and its cursor; neither
    operator touches memory. *)
Theorem assignment_changes_nothing
        (s s2 : Shared.shared_allocator) (a a2 : arena_allocator B) :
  Shared.base (Shared.assign s s2) = Shared.base s /\
  Shared.assign s s2 = s /\
  base (assign a a2) = base a /\
  segment (assign a a2) = segment a /\
  allocated (assign a a2) = allocated a.
Proof. repeat split. Qed.

End MoreCalls.

(** C8.  [==] on two shared allocators compares the addresses of the
    instances they refer to, and [!=] is its negation. *)
Theorem shared_equality_is_identity (a b : Shared.shared_allocator) :
  (Shared.eq a b = true <-> Shared.base a = Shared.base b) /\
  (Shared.ne a b = true <-> Shared.eq a b <> true) /\
  Shared.ne a b = negb (Shared.eq a b).
Proof.
  unfold Shared.ne, Shared.eq. split; [apply Z.eqb_eq |].
  split; [| reflexivity].
  destruct (Shared.base a =? Shared.base b); cbn; split; congruence.
Qed.

(** Two handles over distinct instances differ even when the instances
    are in the same state, and equal handles draw from the same instance. *)
Lemma distinct_instances_compare_unequal :
  let pool : gmap Z Z := <[200 := 4096]> (<[100 := 4096]> ∅) in
  let a := Shared.shared_allocator_new 100 in
  let b := Shared.shared_allocator_new 200 in
  pool !! Shared.base a = pool !! Shared.base b /\
  Shared.eq a b = false /\ Shared.ne a b = true /\ Shared.eq a a = true.
Proof. repeat split. Qed.

Lemma equal_handles_share_the_pool {B} `{BaseAllocator B}
      (a b : Shared.shared_allocator) sz (pool : gmap Z B) :
  Shared.eq a b = true -> Shared.allocate sz a pool = Shared.allocate sz b pool.
Proof.
  unfold Shared.eq, Shared.allocate. intros Heq. apply Z.eqb_eq in Heq.
  rewrite Heq. reflexivity.
Qed.

(** ** The log of calls *)

Lemma requests_app l1 l2 : requests (l1 ++ l2) = requests l1 ++ requests l2.
Proof.
  induction l1 as [| [p n | p n] l1 IH]; cbn; [reflexivity | | exact IH].
  rewrite IH. reflexivity.
Qed.

Lemma releases_app l1 l2 : releases (l1 ++ l2) = releases l1 ++ releases l2.
Proof.
  induction l1 as [| [p n | p n] l1 IH]; cbn; [reflexivity | exact IH |].
  rewrite IH. reflexivity.
Qed.

Lemma requests_released l : requests (map (fun r : Z * Z => Released r.1 r.2) l) = [].
Proof. induction l as [| r l IH]; [reflexivity | exact IH]. Qed.

Lemma releases_released l : releases (map (fun r : Z * Z => Released r.1 r.2) l) = l.
Proof.
  induction l as [| [p n] l IH]; [reflexivity |]. cbn. rewrite IH. reflexivity.
Qed.

Lemma memcpy_inv dst src n w w' :
  memcpy dst src n w = Some w' -> headers w' = headers w /\ calls w' = calls w.
Proof.
  unfold memcpy. destruct (overlap dst src n); [discriminate |].
  intros [= <-]. split; reflexivity.
Qed.

(** ** Invariants of the reachable states *)

Section Invariants.

Variable segmentsize : Z.
Context {B : Type} `{BaseAllocator B}.

Local Abbreviation arena_size := (arena_size segmentsize).
Local Abbreviation allocate := (allocate segmentsize).
Local Abbreviation reallocate := (reallocate segmentsize).
Local Abbreviation reachable := (reachable segmentsize).

Lemma reallocate_inv newsize pointer sz (a : arena_allocator B) w p a' w' :
  reallocate newsize pointer sz a w = Some (p, a', w') ->
  (newsize <= sz /\ p = pointer /\ a' = a /\ w' = w) \/
  (sz < newsize /\ exists w1,
      allocate newsize a w = Some (p, a', w1) /\ memcpy p pointer sz w1 = Some w').
Proof.
  unfold reallocate. destruct (newsize <=? sz) eqn:Hle.
  - apply Z.leb_le in Hle. intros [= <- <- <-]. left. repeat split. exact Hle.
  - apply Z.leb_gt in Hle. intros Hre. right. split; [exact Hle |].
    destruct (allocate newsize a w) as [[[ret a1] w1] |]; [| discriminate].
    cbn [mbind option_bind] in Hre.
    destruct (memcpy ret pointer sz w1) as [w2 |] eqn:Hm; [| discriminate].
    cbn [mbind option_bind] in Hre. injection Hre as <- <- <-.
    exists w1. split; [reflexivity | exact Hm].
Qed.

(** To establish a property of the reachable states it is enough to
    consider construction, [allocate], and changes of memory that keep the
    headers and the log. *)
Lemma reachable_invariant (P : arena_allocator B -> world -> Prop) :
  (forall b w, calls w = [] -> P (arena_allocator_new b) w) ->
  (forall a w sz p a' w',
      reachable a w -> P a w -> in_size_t sz ->
      allocate sz a w = Some (p, a', w') -> P a' w') ->
  (forall a w w', P a w -> headers w' = headers w -> calls w' = calls w -> P a w') ->
  forall a w, reachable a w -> P a w.
Proof.
  intros Hnew Halloc Hmem a w Hr.
  induction Hr as [b w Hc
                  | a w sz p a' w' Hr IH Hsz Ha
                  | a w pointer sz a' w' Hr IH Hsz Hd
                  | a w newsize pointer sz p a' w' Hr IH Hn Hsz Hre
                  | a w payload Hr IH].
  - apply Hnew. exact Hc.
  - eapply Halloc; eassumption.
  - injection Hd as <- <-. exact IH.
  - apply reallocate_inv in Hre.
    destruct Hre as [(_ & _ & -> & ->) | (_ & w1 & Ha & Hm)]; [exact IH |].
    apply memcpy_inv in Hm. destruct Hm as [Hh Hc].
    eapply Hmem; [| exact Hh | exact Hc].
    exact (Halloc _ _ _ _ _ _ Hr IH Hn Ha).
  - eapply Hmem; [exact IH | reflexivity | reflexivity].
Qed.

(** The cursor is a [size_t] multiple of the word size, and a head
    segment is a block of the backing allocator whose header is readable. *)
Lemma reachable_cursor (a : arena_allocator B) w :
  reachable a w ->
  in_size_t (allocated a) /\ aligned (allocated a) /\
  (segment a <> NULL ->
   is_Some (load (segment a) w) /\ exists n, In (segment a, n) (requests (calls w))).
Proof.
  revert a w. apply reachable_invariant.
  - intros b w _. cbn. split; [unfold in_size_t, size_max; lia |].
    split; [reflexivity | congruence].
  - intros a w sz p a' w' _ (Hrange & Hal & Hhead) Hsz Ha.
    apply allocate_inv in Ha.
    destruct Ha as [(Hseg & _ & ns & b & h & h' & _ & Hns & Hh & _ & _ & -> & ->)
                   |[(_ & ns & b & _ & Hns & _ & -> & ->)
                    |(Hseg & _ & _ & _ & -> & ->)]];
      cbn [segment allocated calls].
    + split; [exact Hrange |]. split; [exact Hal |]. intros _.
      destruct (Hhead Hseg) as [_ [n Hin]]. split.
      * unfold load. cbn [headers]. rewrite lookup_insert_eq. eauto.
      * exists n. rewrite requests_app. apply in_or_app. left. exact Hin.
    + split; [apply round_size_range; exact Hsz |].
      split; [apply round_size_multiple |]. intros _. split.
      * unfold load. cbn [headers]. rewrite lookup_insert_eq. eauto.
      * exists segmentsize. rewrite requests_app. apply in_or_app. right. left. reflexivity.
    + split; [apply to_size_t_range |]. split; [| exact Hhead].
      apply to_size_t_multiple. unfold aligned in Hal.
      rewrite Z.add_mod by discriminate. rewrite Hal, round_size_multiple. reflexivity.
  - intros a w w' (Hrange & Hal & Hhead) Hh Hc.
    split; [exact Hrange |]. split; [exact Hal |].
    unfold load. rewrite Hh, Hc. exact Hhead.
Qed.

(** C10.  A pointer returned by [allocate] is [sizeof(Segment)] plus a
    whole number of words past the start of a block obtained from the
    backing allocator; [sizeof(Segment)] is itself a whole number of
    words, so the pointer is word-aligned when that block is, in
    particular when every block of the backing allocator is. *)
Theorem returned_pointer_is_word_offset_in_segment
        sz (a : arena_allocator B) w p a' w' :
  reachable a w ->
  in_size_t sz ->
  allocate sz a w = Some (p, a', w') ->
  sizeof_Segment mod sizeof_size_t = 0 /\
  exists s n k,
    In (s, n) (requests (calls w')) /\
    0 <= k /\
    p = s + (sizeof_Segment + k * sizeof_size_t) /\
    (aligned s -> aligned p) /\
    (Forall (fun b => aligned b.1) (requests (calls w')) -> aligned p).
Proof.
  intros Hr Hsz Ha. split; [reflexivity |].
  destruct (reachable_cursor a w Hr) as (Hrange & Hal & Hhead).
  assert (forall s n k, In (s, n) (requests (calls w')) ->
                        p = s + (sizeof_Segment + k * sizeof_size_t) ->
                        (aligned s -> aligned p) /\
                        (Forall (fun b => aligned b.1) (requests (calls w')) -> aligned p))
    as Hfin.
  { intros s n k Hin ->.
    assert (aligned s -> aligned (s + (sizeof_Segment + k * sizeof_size_t))) as Hs.
    { unfold aligned, sizeof_Segment, sizeof_size_t. intros Hs.
      rewrite Z.add_mod by discriminate. rewrite Hs.
      replace (16 + k * 8) with ((2 + k) * 8) by lia.
      rewrite Z.mod_mul by discriminate. reflexivity. }
    split; [exact Hs |]. intros Hall. apply Hs.
    rewrite Forall_forall in Hall. apply list_elem_of_In in Hin.
    exact (Hall _ Hin). }
  apply allocate_inv in Ha.
  destruct Ha as [(Hseg & _ & ns & b & h & h' & _ & Hns & Hh & _ & -> & -> & ->)
                 |[(_ & ns & b & _ & Hns & -> & -> & ->)
                  |(Hseg & _ & _ & -> & -> & ->)]];
    cbn [calls] in *.
  - exists ns, (to_size_t (sizeof_Segment + round_size sz)), 0.
    assert (In (ns, to_size_t (sizeof_Segment + round_size sz))
               (requests (calls w ++ [Allocated ns (to_size_t (sizeof_Segment
                                                            + round_size sz))]))) as Hin.
    { rewrite requests_app. apply in_or_app. right. left. reflexivity. }
    split; [exact Hin |]. split; [lia |]. split; [lia |].
    apply (Hfin _ _ 0 Hin). lia.
  - exists ns, segmentsize, 0.
    assert (In (ns, segmentsize) (requests (calls w ++ [Allocated ns segmentsize]))) as Hin.
    { rewrite requests_app. apply in_or_app. right. left. reflexivity. }
    split; [exact Hin |]. split; [lia |]. split; [lia |].
    apply (Hfin _ _ 0 Hin). lia.
  - destruct (Hhead Hseg) as [_ [n Hin]].
    unfold aligned, sizeof_size_t in Hal. unfold in_size_t in Hrange.
    pose proof (Z.div_mod (allocated a) 8 ltac:(lia)) as Hd.
    pose proof (Z.div_pos (allocated a) 8 ltac:(lia) ltac:(lia)) as Hq.
    exists (segment a), n, (allocated a / 8).
    split; [exact Hin |]. split; [lia |].
    assert (segment a + sizeof_Segment + allocated a =
            segment a + (sizeof_Segment + allocated a / 8 * sizeof_size_t)) as Hp.
    { unfold sizeof_size_t. lia. }
    split; [exact Hp |]. exact (Hfin _ _ _ Hin Hp).
Qed.

End Invariants.

(** ** The chain and the destructor *)

Lemma chain_agree w w' s l :
  chain w s l ->
  (forall q, In q l.*1 -> load q w' = load q w) ->
  chain w' s l.
Proof.
  induction 1 as [| s h l Hs Hh Hc IH]; intros Hagree.
  - constructor.
  - constructor; [exact Hs | |].
    + rewrite Hagree; [exact Hh | left; reflexivity].
    + apply IH. intros q Hq. apply Hagree. right. exact Hq.
Qed.

Lemma chain_head w s l :
  chain w s l -> s <> NULL ->
  exists h l', l = (s, size h) :: l' /\ load s w = Some h /\ chain w (next h) l'.
Proof.
  intros Hc Hs. destruct Hc as [| s h l _ Hh Hc]; [congruence |]. eauto.
Qed.

Section Teardown.

Variable segmentsize : Z.
Context {B : Type} `{BaseAllocator B}.

Local Abbreviation allocate := (allocate segmentsize).
Local Abbreviation reachable := (reachable segmentsize).

(** With enough iterations the loop of the destructor releases the
    segments of the chain, in chain order, each with its recorded size. *)
Lemma release_chain_chain w s l :
  chain w s l ->
  forall (fuel : nat) (b : B) evs,
    (length l <= fuel)%nat ->
    release_chain fuel s b
      {| headers := headers w; bytes := bytes w; calls := evs |} =
    Some (foldl (fun b r => base_deallocate r.1 r.2 b) b l,
          {| headers := headers w; bytes := bytes w;
             calls := evs ++ map (fun r : Z * Z => Released r.1 r.2) l |}).
Proof.
  induction 1 as [| s h l Hs Hh Hc IH]; intros fuel b evs Hfuel.
  - destruct fuel; cbn; rewrite app_nil_r; reflexivity.
  - destruct fuel as [| fuel]; [cbn in Hfuel; lia |].
    cbn [release_chain]. apply Z.eqb_neq in Hs. rewrite Hs.
    unfold load in *. cbn [headers]. rewrite Hh. cbn [mbind option_bind].
    unfold call_deallocate, log. cbn [headers bytes calls].
    rewrite (IH fuel (base_deallocate s (size h) b) (evs ++ [Released s (size h)]))
      by (cbn in Hfuel; lia).
    cbn [map foldl fst snd]. rewrite <- app_assoc. reflexivity.
Qed.

(** While the backing allocator never hands out an address twice, the
    chain from the head holds exactly the blocks obtained from it, each
    header recording the size that was asked for, and nothing has been
    given back. *)
Lemma reachable_chain (a : arena_allocator B) w :
  reachable a w ->
  NoDup (requests (calls w)).*1 ->
  releases (calls w) = [] /\
  exists l, chain w (segment a) l /\ l ≡ₚ requests (calls w).
Proof.
  revert a w.
  apply (reachable_invariant segmentsize
           (fun a w => NoDup (requests (calls w)).*1 ->
                       releases (calls w) = [] /\
                       exists l, chain w (segment a) l /\ l ≡ₚ requests (calls w))).
  - intros b w Hc _. rewrite Hc. split; [reflexivity |].
    exists []. split; [constructor | reflexivity].
  - intros a w sz p a' w' _ IH Hsz Ha Hnd.
    apply allocate_inv in Ha.
    destruct Ha as [(Hseg & _ & ns & b & h & h' & _ & Hns & Hh & Hh' & _ & -> & ->)
                   |[(_ & ns & b & _ & Hns & _ & -> & ->)
                    |(Hseg & _ & _ & _ & -> & ->)]];
      cbn [segment calls] in *.
    + rewrite requests_app, fmap_app in Hnd. cbn in Hnd.
      apply NoDup_app in Hnd. destruct Hnd as (Hnd & Hfresh & _).
      destruct (IH Hnd) as (Hrel & l & Hchain & Hperm).
      rewrite releases_app, Hrel. split; [reflexivity |].
      destruct (chain_head _ _ _ Hchain Hseg) as (h0 & l' & -> & Hh0 & Hc').
      rewrite Hh in Hh0. injection Hh0 as <-.
      assert (NoDup ((segment a, size h) :: l').*1) as Hndl.
      { rewrite Hperm. exact Hnd. }
      cbn in Hndl. apply NoDup_cons in Hndl. destruct Hndl as [Hhead Hndl'].
      assert (forall q, q ∈ ((segment a, size h) :: l').*1 -> q <> ns) as Hne.
      { intros q Hq ->. rewrite Hperm in Hq. apply (Hfresh ns Hq). left. }
      assert (ns <> segment a) as Hns'.
      { intros ->. apply (Hne (segment a)); [left | reflexivity]. }
      rewrite decide_False in Hh' by exact Hns'. subst h'.
      exists ((segment a, size h) :: (ns, to_size_t (sizeof_Segment + round_size sz)) :: l').
      split.
      * apply (chain_link _ (segment a) {| next := ns; size := size h |});
          [exact Hseg | unfold load; cbn [headers]; apply lookup_insert_eq |].
        cbn [next].
        apply (chain_link _ ns {| next := next h;
                                  size := to_size_t (sizeof_Segment + round_size sz) |});
          [exact Hns | |].
        { unfold load. cbn [headers]. rewrite lookup_insert_ne by congruence.
          apply lookup_insert_eq. }
        cbn [next]. apply (chain_agree w); [exact Hc' |].
        intros q Hq. unfold load. cbn [headers].
        apply list_elem_of_In in Hq.
        rewrite !lookup_insert_ne; [reflexivity | |].
        -- intros <-. apply (Hne ns); [right; exact Hq | reflexivity].
        -- intros <-. apply Hhead. exact Hq.
      * rewrite requests_app. cbn [requests].
        rewrite <- Hperm. rewrite <- Permutation_cons_append.
        apply perm_swap.
    + rewrite requests_app, fmap_app in Hnd. cbn in Hnd.
      apply NoDup_app in Hnd. destruct Hnd as (Hnd & Hfresh & _).
      destruct (IH Hnd) as (Hrel & l & Hchain & Hperm).
      rewrite releases_app, Hrel. split; [reflexivity |].
      exists ((ns, segmentsize) :: l). split.
      * apply (chain_link _ ns {| next := segment a; size := segmentsize |});
          [exact Hns | unfold load; cbn [headers]; apply lookup_insert_eq |].
        cbn [next]. apply (chain_agree w); [exact Hchain |].
        intros q Hq. unfold load. cbn [headers].
        apply list_elem_of_In in Hq.
        rewrite lookup_insert_ne; [reflexivity |].
        intros <-. rewrite Hperm in Hq. apply (Hfresh ns Hq). left.
      * rewrite requests_app. cbn [requests].
        rewrite <- Hperm. apply Permutation_cons_append.
    + exact (IH Hnd).
  - intros a w w' IH Hh Hc Hnd. rewrite Hc in *.
    destruct (IH Hnd) as (Hrel & l & Hchain & Hperm).
    split; [exact Hrel |]. exists l. split; [| exact Hperm].
    apply (chain_agree w); [exact Hchain |].
    intros q _. unfold load. rewrite Hh. reflexivity.
Qed.

(** Every block is asked for either as a full segment or as a header
    plus a rounded request. *)
Lemma reachable_requests (a : arena_allocator B) w :
  reachable a w ->
  Forall (fun r => r.2 = segmentsize \/
                   exists sz, in_size_t sz /\
                              r.2 = to_size_t (sizeof_Segment + round_size sz))
         (requests (calls w)).
Proof.
  revert a w.
  apply (reachable_invariant segmentsize
           (fun _ w => Forall (fun r => r.2 = segmentsize \/
                                        exists sz, in_size_t sz /\
                                          r.2 = to_size_t (sizeof_Segment + round_size sz))
                              (requests (calls w)))).
  - intros b w ->. constructor.
  - intros a w sz p a' w' _ IH Hsz Ha.
    apply allocate_inv in Ha.
    destruct Ha as [(_ & _ & ns & b & h & h' & _ & _ & _ & _ & _ & _ & ->)
                   |[(_ & ns & b & _ & _ & _ & _ & ->)
                    |(_ & _ & _ & _ & _ & ->)]];
      cbn [calls]; [| | exact IH];
      rewrite requests_app; apply Forall_app; (split; [exact IH |]);
      apply Forall_cons; (split; [cbn beta iota delta [snd] | constructor]).
    + right. exists sz. split; [exact Hsz | reflexivity].
    + left. reflexivity.
  - intros a w w' IH _ ->. exact IH.
Qed.

(** C3.  Destroying the arena terminates (any number of iterations from
    the number of segments on is enough) and makes one [deallocate] call on
    the backing allocator per block obtained from it, with that block's
    address and the size that was requested for it: the backing allocator
    is left in the state these calls, made one after the other on the
    state it had, take it to, and they are the only calls the destructor
    adds to the log.  The requested sizes are [segmentsize] or
    [sizeof(Segment)] plus a rounded size; no header and no payload byte is
    written. *)
Theorem destructor_releases_every_segment
        (a : arena_allocator B) w (fuel : nat) :
  reachable a w ->
  NoDup (requests (calls w)).*1 ->
  (length (requests (calls w)) <= fuel)%nat ->
  exists l b' w',
    destroy fuel a w = Some (b', w') /\
    l ≡ₚ requests (calls w) /\
    b' = foldl (fun b r => base_deallocate r.1 r.2 b) (base a) l /\
    calls w' = calls w ++ map (fun r : Z * Z => Released r.1 r.2) l /\
    releases (calls w') = l /\
    headers w' = headers w /\
    bytes w' = bytes w /\
    requests (calls w') = requests (calls w) /\
    releases (calls w') ≡ₚ requests (calls w) /\
    length (releases (calls w')) = length (requests (calls w)) /\
    Forall (fun r => r.2 = segmentsize \/
                     exists sz, in_size_t sz /\
                                r.2 = to_size_t (sizeof_Segment + round_size sz))
           (releases (calls w')).
Proof.
  intros Hr Hnd Hfuel.
  destruct (reachable_chain a w Hr Hnd) as (Hrel & l & Hchain & Hperm).
  assert (length l <= fuel)%nat as Hlen by (rewrite Hperm; exact Hfuel).
  pose proof (release_chain_chain w (segment a) l Hchain fuel (base a) (calls w) Hlen)
    as Hd.
  eexists l, _, _. split.
  { unfold destroy. destruct w as [hs bs cs]. exact Hd. }
  cbn [calls headers bytes]. rewrite requests_app, releases_app, Hrel.
  rewrite requests_released, releases_released, app_nil_r. cbn [app].
  split; [exact Hperm |]. split; [reflexivity |]. split; [reflexivity |].
  split; [reflexivity |]. split; [reflexivity |]. split; [reflexivity |].
  split; [reflexivity |]. split; [exact Hperm |].
  split; [rewrite Hperm; reflexivity |].
  rewrite Hperm. exact (reachable_requests a w Hr).
Qed.

End Teardown.

(** ** Regions and blocks *)

Lemma pairwise_snoc {A} (R : A -> A -> Prop) l x :
  pairwise R (l ++ [x]) <-> pairwise R l /\ Forall (fun y => R y x) l.
Proof.
  induction l as [| y l IH]; cbn.
  - split; [intros _; split; [exact I | constructor] | intros _; split; [constructor | exact I]].
  - rewrite Forall_app, IH, !Forall_cons, Forall_nil. tauto.
Qed.

Lemma pairwise_app_l {A} (R : A -> A -> Prop) l1 l2 :
  pairwise R (l1 ++ l2) -> pairwise R l1.
Proof.
  induction l1 as [| y l1 IH]; cbn; [intros _; exact I |].
  rewrite Forall_app. intros [[Hy _] Hp]. split; [exact Hy | exact (IH Hp)].
Qed.

Lemma pairwise_impl {A} (R R' : A -> A -> Prop) l :
  pairwise R l ->
  (forall x y, In x l -> In y l -> R x y -> R' x y) ->
  pairwise R' l.
Proof.
  induction l as [| x l IH]; cbn; [intros _ _; exact I |].
  intros [Hx Hp] Himp. split.
  - rewrite List.Forall_forall in *. intros y Hy.
    apply Himp; [left; reflexivity | right; exact Hy | exact (Hx y Hy)].
  - apply IH; [exact Hp |]. intros y z Hy Hz. apply Himp; right; assumption.
Qed.

Lemma pairwise_In {A} (R : A -> A -> Prop) l x y :
  pairwise R l -> In x l -> In y l -> x = y \/ R x y \/ R y x.
Proof.
  induction l as [| z l IH]; cbn; [intros _ [] |].
  intros [Hz Hp] [-> | Hx] [-> | Hy].
  - left. reflexivity.
  - right. left. rewrite List.Forall_forall in Hz. exact (Hz y Hy).
  - right. right. rewrite List.Forall_forall in Hz. exact (Hz x Hx).
  - exact (IH Hp Hx Hy).
Qed.

Lemma in_data_disjoint b b' p : disjoint b b' -> in_data b p -> in_data b' p -> False.
Proof. unfold disjoint, in_data, sizeof_Segment. lia. Qed.

Lemma in_data_unique blocks b b' p :
  pairwise disjoint blocks -> In b blocks -> In b' blocks ->
  in_data b p -> in_data b' p -> b = b'.
Proof.
  intros Hp Hb Hb' Hd Hd'.
  destruct (pairwise_In _ _ _ _ Hp Hb Hb') as [Heq | [Hdis | Hdis]]; [exact Heq | |].
  - destruct (in_data_disjoint _ _ _ Hdis Hd Hd').
  - destruct (in_data_disjoint _ _ _ Hdis Hd' Hd).
Qed.

(** A region inside one block and a region inside another, the two blocks
    not overlapping. *)
Lemma inside_disjoint b b' r r' :
  disjoint b b' \/ disjoint b' b ->
  in_data b r.1 /\ r.1 + r.2 <= b.1 + b.2 ->
  in_data b' r'.1 /\ r'.1 + r'.2 <= b'.1 + b'.2 ->
  disjoint r r'.
Proof. unfold disjoint, in_data, sizeof_Segment. lia. Qed.

(** A request served from a block of its own, one that overlaps none of
    the earlier blocks: the earlier regions lie outside the new block, and
    the new region is apart from all of them. *)
Lemma fresh_block extent blocks nb R r :
  pairwise disjoint (blocks ++ [nb]) ->
  Forall (fun r => inside blocks (region extent r) /\ extent r.2 <= round_size r.2) R ->
  pairwise (fun r1 r2 => disjoint (region extent r1) (region extent r2) /\
                         ordered blocks r1 r2) R ->
  in_data nb r.1 ->
  r.1 + extent r.2 <= nb.1 + nb.2 ->
  extent r.2 <= round_size r.2 ->
  Forall (fun r0 => ~ in_data nb r0.1) R /\
  Forall (fun r => inside (blocks ++ [nb]) (region extent r) /\
                   extent r.2 <= round_size r.2) (R ++ [r]) /\
  pairwise (fun r1 r2 => disjoint (region extent r1) (region extent r2) /\
                         ordered (blocks ++ [nb]) r1 r2) (R ++ [r]).
Proof.
  intros Hp Hin Hap Hd He Hr.
  apply pairwise_snoc in Hp. destruct Hp as [_ Hnb].
  rewrite List.Forall_forall in Hnb, Hin.
  assert (forall r0, In r0 R -> ~ in_data nb r0.1) as Hout.
  { intros r0 Hr0 Hc. destruct (Hin r0 Hr0) as [Hins _].
    apply List.Exists_exists in Hins. destruct Hins as (b & Hb & Hbd & _).
    exact (in_data_disjoint b nb _ (Hnb b Hb) Hbd Hc). }
  split; [apply List.Forall_forall; exact Hout |]. split.
  - apply Forall_app. split.
    + apply List.Forall_forall. intros r0 Hr0. destruct (Hin r0 Hr0) as [Hins Hle].
      split; [| exact Hle]. apply Exists_app. left. exact Hins.
    + apply Forall_cons. split; [| constructor].
      split; [| exact Hr]. apply Exists_app. right. apply Exists_cons_hd.
      split; [exact Hd | exact He].
  - apply pairwise_snoc. split.
    + apply (pairwise_impl _ _ _ Hap). intros x y Hx _ [Hdis Hord].
      split; [exact Hdis |]. intros Hss. apply Hord.
      apply Exists_app in Hss. destruct Hss as [Hss | Hss]; [exact Hss |].
      apply Exists_cons in Hss. destruct Hss as [[Hc _] | Hss].
      * destruct (Hout x Hx Hc).
      * apply Exists_nil in Hss. destruct Hss.
    + apply List.Forall_forall. intros r0 Hr0. destruct (Hin r0 Hr0) as [Hins _].
      apply List.Exists_exists in Hins. destruct Hins as (b & Hb & Hbd).
      split.
      * apply (inside_disjoint b nb); [left; exact (Hnb b Hb) | exact Hbd |].
        split; [exact Hd | exact He].
      * intros Hss. apply Exists_app in Hss. destruct Hss as [Hss | Hss].
        -- apply List.Exists_exists in Hss. destruct Hss as (b' & Hb' & _ & Hc).
           destruct (in_data_disjoint b' nb _ (Hnb b' Hb') Hc Hd).
        -- apply Exists_cons in Hss. destruct Hss as [[Hc _] | Hss].
           ++ destruct (Hout r0 Hr0 Hc).
           ++ apply Exists_nil in Hss. destruct Hss.
Qed.

Section LayoutFacts.

Variable segmentsize : Z.
Variable extent : Z -> Z.
Context {B : Type} `{BaseAllocator B}.

Local Abbreviation allocate := (allocate segmentsize).
Local Abbreviation tidy := (tidy segmentsize extent).

Hypothesis segmentsize_ok : sizeof_Segment <= segmentsize <= 2 ^ 63.
Hypothesis extent_ok :
  forall sz, 0 <= sz <= arena_size segmentsize ->
             0 <= extent sz <= round_size sz /\ extent sz <= arena_size segmentsize.

Lemma arena_size_exact : arena_size segmentsize = segmentsize - sizeof_Segment.
Proof.
  unfold arena_size, to_size_t, size_max, sizeof_Segment in *.
  apply Z.mod_small. lia.
Qed.

Lemma round_size_bounds sz :
  0 <= sz <= arena_size segmentsize -> sz <= round_size sz < sz + sizeof_size_t.
Proof.
  intros Hsz. rewrite arena_size_exact in Hsz.
  apply round_size_exact; [lia |].
  unfold size_max, sizeof_Segment, sizeof_size_t in *. lia.
Qed.

Lemma cursor_sum_exact x y :
  0 <= x <= arena_size segmentsize + sizeof_size_t ->
  0 <= y <= arena_size segmentsize + sizeof_size_t ->
  to_size_t (x + y) = x + y.
Proof.
  rewrite arena_size_exact. intros Hx Hy. apply to_size_t_small.
  unfold in_size_t, size_max, sizeof_Segment, sizeof_size_t in *. lia.
Qed.

Lemma header_sum_exact y :
  0 <= y <= arena_size segmentsize + sizeof_size_t ->
  to_size_t (sizeof_Segment + y) = sizeof_Segment + y.
Proof.
  rewrite arena_size_exact. intros Hy. apply to_size_t_small.
  unfold in_size_t, size_max, sizeof_Segment, sizeof_size_t in *. lia.
Qed.

(** One more allocation keeps the layout tidy. *)
Lemma tidy_step (a : arena_allocator B) w R sz p a' w' :
  tidy a w R ->
  0 <= sz <= arena_size segmentsize ->
  allocate sz a w = Some (p, a', w') ->
  pairwise disjoint (requests (calls w')) ->
  tidy a' w' (R ++ [(p, sz)]).
Proof.
  intros [Hhead Hins Hcur Hap] Hsz Ha Hblocks.
  destruct (extent_ok sz Hsz) as [[He0 Her] Hea].
  pose proof (round_size_bounds sz Hsz) as Hr.
  pose proof arena_size_exact as Hcap.
  apply allocate_inv in Ha.
  destruct Ha as [(Hseg & Hbig & ns & b & h & h' & Hb & Hns & Hh & _ & -> & -> & ->)
                 |[(Hcase & ns & b & Hb & Hns & -> & -> & ->)
                  |(Hseg & Hsmall & Hfit & -> & -> & ->)]].
  - (* a dedicated segment *)
    cbn [calls] in Hblocks. rewrite requests_app in Hblocks. cbn [requests] in Hblocks.
    rewrite header_sum_exact in Hblocks by lia.
    destruct (Hhead Hseg) as (Hinh & Hload & Hal).
    destruct (fresh_block extent (requests (calls w)) (ns, sizeof_Segment + round_size sz)
                          R (ns + sizeof_Segment, sz) Hblocks Hins Hap)
      as (Hout & Hins' & Hap').
    { unfold in_data. cbn [fst snd]. lia. }
    { cbn [fst snd]. lia. }
    { cbn [fst snd]. lia. }
    constructor; cbn [segment allocated calls];
      rewrite ?requests_app; cbn [requests]; rewrite ?header_sum_exact by lia.
    + intros _. split; [apply in_or_app; left; exact Hinh |].
      split; [| exact Hal]. unfold load. cbn [headers]. rewrite lookup_insert_eq. eauto.
    + exact Hins'.
    + apply Forall_app. split; [exact Hcur |].
      apply Forall_cons. split; [| constructor]. cbn [fst snd]. intros Hc. exfalso.
      apply pairwise_snoc in Hblocks. destruct Hblocks as [_ Hnb].
      rewrite List.Forall_forall in Hnb.
      apply (in_data_disjoint _ _ _ (Hnb _ Hinh) Hc).
      unfold in_data. cbn [fst snd]. lia.
    + exact Hap'.
  - (* a new head segment *)
    cbn [calls] in Hblocks. rewrite requests_app in Hblocks. cbn [requests] in Hblocks.
    destruct (fresh_block extent (requests (calls w)) (ns, segmentsize)
                          R (ns + sizeof_Segment, sz) Hblocks Hins Hap)
      as (Hout & Hins' & Hap').
    { unfold in_data. cbn [fst snd]. lia. }
    { cbn [fst snd]. lia. }
    { cbn [fst snd]. lia. }
    constructor; cbn [segment allocated calls]; rewrite ?requests_app; cbn [requests].
    + intros _. split; [apply in_or_app; right; left; reflexivity |].
      split; [| unfold sizeof_size_t in *; lia].
      unfold load. cbn [headers]. rewrite lookup_insert_eq. eauto.
    + exact Hins'.
    + apply Forall_app. split.
      * apply (Forall_impl _ _ _ Hout). intros r0 Hr0 Hc. destruct (Hr0 Hc).
      * apply Forall_cons. split; [| constructor]. cbn [fst snd]. intros _. lia.
    + exact Hap'.
  - (* a bump of the cursor *)
    destruct (Hhead Hseg) as (Hinh & Hload & Hal).
    rewrite cursor_sum_exact in Hfit |- * by (unfold sizeof_size_t in *; lia).
    assert (in_data (segment a, segmentsize) (segment a + sizeof_Segment + allocated a)
            /\ segment a + sizeof_Segment + allocated a + extent sz
               <= segment a + segmentsize) as [Hpd Hpe].
    { unfold in_data. cbn [fst snd]. lia. }
    constructor; cbn [segment allocated].
    + intros _. split; [exact Hinh |]. split; [exact Hload |].
      unfold sizeof_size_t in *. lia.
    + apply Forall_app. split; [exact Hins |].
      apply Forall_cons. split; [| constructor]. split; [| exact Her].
      apply List.Exists_exists. exists (segment a, segmentsize).
      split; [exact Hinh |]. split; [exact Hpd | exact Hpe].
    + apply Forall_app. split.
      * apply (Forall_impl _ _ _ Hcur). intros r0 Hr0 Hc. specialize (Hr0 Hc). lia.
      * apply Forall_cons. split; [| constructor]. cbn [fst snd]. intros _. lia.
    + apply pairwise_snoc. split; [exact Hap |].
      rewrite List.Forall_forall in Hins, Hcur. apply List.Forall_forall.
      intros r0 Hr0. destruct (Hins r0 Hr0) as [Hin0 Hle0]. specialize (Hcur r0 Hr0).
      assert (in_data (segment a, segmentsize) r0.1 \/
              ~ in_data (segment a, segmentsize) r0.1) as [Hc | Hc].
      { unfold in_data. cbn [fst snd]. lia. }
      * specialize (Hcur Hc). split.
        -- left. cbn [region fst snd]. lia.
        -- intros _. cbn [fst snd]. lia.
      * apply List.Exists_exists in Hin0. destruct Hin0 as (b0 & Hb0 & Hbd).
        cbn [region fst snd] in Hbd. split.
        -- destruct (pairwise_In _ _ _ _ Hblocks Hb0 Hinh) as [-> | Hdis].
           ++ destruct (Hc (proj1 Hbd)).
           ++ apply (inside_disjoint b0 (segment a, segmentsize)); [exact Hdis | exact Hbd |].
              split; [exact Hpd | exact Hpe].
        -- intros Hss. exfalso. apply Hc.
           apply List.Exists_exists in Hss. destruct Hss as (b1 & Hb1 & Hd1 & Hd1').
           cbn [fst snd] in Hd1, Hd1'.
           rewrite (in_data_unique _ _ _ _ Hblocks Hinh Hb1 Hpd Hd1'). exact Hd1.
Qed.

Lemma allocate_all_calls sizes :
  forall (a : arena_allocator B) w ps a' w',
    allocate_all segmentsize sizes a w = Some (ps, a', w') ->
    exists l, calls w' = calls w ++ l.
Proof.
  induction sizes as [| sz sizes IH]; intros a w ps a' w'; cbn [allocate_all].
  - intros [= _ _ <-]. exists []. rewrite app_nil_r. reflexivity.
  - destruct (allocate sz a w) as [[[p a1] w1] |] eqn:Ha; [| discriminate].
    cbn [mbind option_bind].
    destruct (allocate_all segmentsize sizes a1 w1) as [[[ps1 a2] w2] |] eqn:Hall;
      [| discriminate].
    cbn [mbind option_bind]. intros [= _ _ <-].
    destruct (IH _ _ _ _ _ Hall) as [l Hl].
    destruct (allocate_frame _ _ _ _ _ _ _ Ha) as [_ [Hc | (q & n & Hc)]];
      rewrite Hl, Hc; [eauto |].
    rewrite <- app_assoc. eauto.
Qed.

(** Consecutive allocations keep the layout tidy. *)
Lemma allocate_all_tidy sizes :
  forall (a : arena_allocator B) w R ps a' w',
    tidy a w R ->
    Forall (fun sz => 0 <= sz <= arena_size segmentsize) sizes ->
    allocate_all segmentsize sizes a w = Some (ps, a', w') ->
    pairwise disjoint (requests (calls w')) ->
    length ps = length sizes /\ tidy a' w' (R ++ zip ps sizes).
Proof.
  induction sizes as [| sz sizes IH]; intros a w R ps a' w' Ht Hsizes;
    cbn [allocate_all].
  - intros [= <- <- <-] _. cbn. rewrite app_nil_r. split; [reflexivity | exact Ht].
  - destruct (allocate sz a w) as [[[p a1] w1] |] eqn:Ha; [| discriminate].
    cbn [mbind option_bind].
    destruct (allocate_all segmentsize sizes a1 w1) as [[[ps1 a2] w2] |] eqn:Hall;
      [| discriminate].
    cbn [mbind option_bind]. intros [= <- <- <-] Hblocks.
    apply Forall_cons in Hsizes. destruct Hsizes as [Hsz Hsizes].
    destruct (allocate_all_calls _ _ _ _ _ _ Hall) as [l Hl].
    assert (pairwise disjoint (requests (calls w1))) as Hblocks1.
    { rewrite Hl, requests_app in Hblocks. exact (pairwise_app_l _ _ _ Hblocks). }
    pose proof (tidy_step _ _ _ _ _ _ _ Ht Hsz Ha Hblocks1) as Ht1.
    destruct (IH _ _ _ _ _ _ Ht1 Hsizes Hall Hblocks) as [Hlen Ht2].
    split; [cbn; rewrite Hlen; reflexivity |].
    rewrite <- app_assoc in Ht2. exact Ht2.
Qed.

End LayoutFacts.

Lemma tidy_new segmentsize extent {B} `{BaseAllocator B} (b : B) w :
  tidy segmentsize extent (arena_allocator_new b) w [].
Proof.
  constructor; [intros Hc; destruct Hc; reflexivity | constructor | constructor | exact I].
Qed.

Lemma round_size_le_multiple sz c :
  0 <= sz <= c -> c mod sizeof_size_t = 0 -> c + sizeof_size_t <= size_max ->
  round_size sz <= c.
Proof.
  unfold round_size, to_size_t, size_max, sizeof_size_t. intros Hsz Hc Hmax.
  destruct (sz mod 8 =? 0) eqn:E; [lia |]. apply Z.eqb_neq in E.
  pose proof (Z.div_mod sz 8 ltac:(lia)) as Hd.
  pose proof (Z.mod_pos_bound sz 8 ltac:(lia)) as Hm.
  pose proof (Z.div_mod c 8 ltac:(lia)) as Hdc.
  rewrite Z.mod_small; lia.
Qed.

(** ** Growing a region obtained earlier

    After consecutive allocations on a fresh arena the region of a pointer
    returned earlier is live, so [reallocate] can grow it: the fresh region
    does not overlap it and receives its bytes. *)

(** The head's header stays readable along consecutive allocations. *)
Lemma allocate_all_head_readable segmentsize {B} `{BaseAllocator B} sizes :
  forall (a : arena_allocator B) w ps a' w',
    (segment a <> NULL -> is_Some (load (segment a) w)) ->
    allocate_all segmentsize sizes a w = Some (ps, a', w') ->
    segment a' <> NULL -> is_Some (load (segment a') w').
Proof.
  induction sizes as [| sz sizes IH]; intros a w ps a' w' Hhead; cbn [allocate_all].
  - intros [= _ <- <-]. exact Hhead.
  - destruct (allocate segmentsize sz a w) as [[[q a1] w1] |] eqn:Ha; [| discriminate].
    cbn [mbind option_bind].
    destruct (allocate_all segmentsize sizes a1 w1) as [[[ps1 a2] w2] |] eqn:Hall;
      [| discriminate].
    cbn [mbind option_bind]. intros [= _ <- <-].
    apply (IH a1 w1 ps1); [| exact Hall].
    apply allocate_inv in Ha.
    destruct Ha as [(_ & _ & ns & b0 & h & h' & _ & _ & _ & _ & _ & -> & ->)
                   |[(_ & ns & b0 & _ & _ & _ & -> & ->)
                    |(_ & _ & _ & _ & -> & ->)]];
      cbn [segment]; unfold load; cbn [headers];
      [intros _; rewrite lookup_insert_eq; eauto
      |intros _; rewrite lookup_insert_eq; eauto
      |exact Hhead].
Qed.

Lemma reallocate_after_allocations
      segmentsize {B} `{BaseAllocator B} sizes (b : B) w0 ps a w p old newsize :
  sizeof_Segment <= segmentsize <= 2 ^ 63 ->
  Forall (fun sz => 0 <= sz <= arena_size segmentsize) sizes ->
  allocate_all segmentsize sizes (arena_allocator_new b) w0 = Some (ps, a, w) ->
  In (p, old) (zip ps sizes) ->
  old < newsize <= arena_size segmentsize ->
  (forall n, (base_allocate n (base a)).1 <> NULL) ->
  (forall ret a' w', allocate segmentsize newsize a w = Some (ret, a', w') ->
                     pairwise disjoint (requests (calls w'))) ->
  exists ret a' w2,
    reallocate segmentsize newsize p old a w = Some (ret, a', w2) /\
    disjoint (p, old) (ret, newsize) /\
    (forall i, 0 <= i < old -> bytes w2 (ret + i) = bytes w (p + i)) /\
    (forall i, 0 <= i < old -> bytes w2 (p + i) = bytes w (p + i)) /\
    releases (calls w2) = releases (calls w).
Proof.
  intros Hseg Hsizes Hrun Hin Hnew Hbase Hblocks.
  assert (forall sz, 0 <= sz <= arena_size segmentsize ->
                     0 <= sz <= round_size sz /\ sz <= arena_size segmentsize) as Hid.
  { intros sz Hsz. pose proof (round_size_bounds segmentsize Hseg sz Hsz). lia. }
  assert (0 <= old) as Hold.
  { pose proof Hin as Hin'. apply list_elem_of_In, elem_of_zip_r in Hin'.
    rewrite Forall_forall in Hsizes. specialize (Hsizes _ Hin'). lia. }
  assert (is_Some (allocate segmentsize newsize a w)) as [[[ret a'] w1] Ha].
  { apply allocate_succeeds; [| exact Hbase].
    apply (allocate_all_head_readable segmentsize sizes (arena_allocator_new b) w0 ps);
      [| exact Hrun].
    intros Hc. destruct Hc. reflexivity. }
  specialize (Hblocks _ _ _ Ha).
  assert (pairwise disjoint (requests (calls w))) as Hblocks0.
  { destruct (allocate_frame _ _ _ _ _ _ _ Ha) as [_ [Hc | (q & n & Hc)]];
      rewrite Hc in Hblocks; [exact Hblocks |].
    rewrite requests_app in Hblocks. exact (pairwise_app_l _ _ _ Hblocks). }
  destruct (allocate_all_tidy segmentsize (fun sz => sz) Hseg Hid sizes _ _ [] _ _ _
                              (tidy_new _ _ b w0) Hsizes Hrun Hblocks0) as [_ Ht].
  cbn [app] in Ht.
  assert (0 <= newsize <= arena_size segmentsize) as Hn by lia.
  destruct (tidy_step segmentsize (fun sz => sz) Hseg Hid _ _ _ _ _ _ _ Ht Hn Ha Hblocks)
    as [_ _ _ Hap].
  apply pairwise_snoc in Hap. destruct Hap as [_ Hap].
  rewrite List.Forall_forall in Hap. destruct (Hap _ Hin) as [Hdis _].
  unfold disjoint, region in Hdis. cbn [fst snd] in Hdis.
  destruct (reallocate_grow segmentsize newsize p old a w ret a' w1)
    as (w2 & Hre & Hcopy & Hkeep & Hrel & _);
    [lia | exact Ha | unfold disjoint; cbn [fst snd]; lia |].
  exists ret, a', w2. split; [exact Hre |]. split; [exact Hdis |].
  split; [exact Hcopy |]. split; [exact Hkeep | exact Hrel].
Qed.

(** ** Consecutive allocations on a fresh arena *)

Section Consecutive.

Variable segmentsize : Z.
Context {B : Type} `{BaseAllocator B}.

(** C5, as the code has it.  On a fresh arena whose backing allocator hands
    out blocks that do not overlap, requests of at most [arena_size()]
    bytes get regions that lie in the data area of a segment, no two of
    which overlap; within a segment an allocation, with its size rounded
    up, ends where a later one starts or before, so that the addresses
    never decrease in call order and increase strictly after every request
    of at least one byte.  When [segmentsize] is a whole number of words
    all of this holds of the regions of the rounded sizes too. *)
Theorem consecutive_allocations_are_apart sizes (b : B) w0 ps a w :
  sizeof_Segment <= segmentsize <= 2 ^ 63 ->
  Forall (fun sz => 0 <= sz <= arena_size segmentsize) sizes ->
  allocate_all segmentsize sizes (arena_allocator_new b) w0 = Some (ps, a, w) ->
  pairwise disjoint (requests (calls w)) ->
  length ps = length sizes /\
  Forall (inside (requests (calls w))) (zip ps sizes) /\
  pairwise disjoint (zip ps sizes) /\
  pairwise (fun r1 r2 =>
              same_segment (requests (calls w)) r1.1 r2.1 ->
              r1.1 + round_size r1.2 <= r2.1 /\ r1.1 <= r2.1 /\
              (0 < r1.2 -> r1.1 < r2.1)) (zip ps sizes) /\
  (segmentsize mod sizeof_size_t = 0 ->
   Forall (fun r => inside (requests (calls w)) (r.1, round_size r.2)) (zip ps sizes) /\
   pairwise (fun r1 r2 => disjoint (r1.1, round_size r1.2) (r2.1, round_size r2.2))
            (zip ps sizes)).
Proof.
  intros Hseg Hsizes Hrun Hblocks.
  assert (forall sz, 0 <= sz <= arena_size segmentsize ->
                     0 <= sz <= round_size sz /\ sz <= arena_size segmentsize) as Hid.
  { intros sz Hsz. pose proof (round_size_bounds segmentsize Hseg sz Hsz). lia. }
  destruct (allocate_all_tidy segmentsize (fun sz => sz) Hseg Hid sizes _ _ [] _ _ _
                              (tidy_new _ _ b w0) Hsizes Hrun Hblocks)
    as [Hlen [_ Hins _ Hap]].
  cbn [app] in Hins, Hap.
  split; [exact Hlen |]. split; [| split; [| split]].
  - apply (Forall_impl _ _ _ Hins). intros [p sz] [Hin _]. exact Hin.
  - apply (pairwise_impl _ _ _ Hap). intros [p1 s1] [p2 s2] _ _ [Hdis _]. exact Hdis.
  - apply (pairwise_impl _ _ _ Hap). intros [p1 s1] [p2 s2] Hin1 _ [_ Hord] Hss.
    specialize (Hord Hss). cbn [fst snd] in *.
    apply list_elem_of_In, elem_of_zip_r in Hin1.
    rewrite Forall_forall in Hsizes. specialize (Hsizes _ Hin1).
    pose proof (round_size_bounds segmentsize Hseg s1 Hsizes). lia.
  - intros Hword.
    assert (forall sz, 0 <= sz <= arena_size segmentsize ->
                       0 <= round_size sz <= round_size sz /\
                       round_size sz <= arena_size segmentsize) as Hround.
    { intros sz Hsz. pose proof (round_size_bounds segmentsize Hseg sz Hsz).
      split; [lia |]. apply round_size_le_multiple; [exact Hsz | |].
      - rewrite (arena_size_exact segmentsize Hseg).
        unfold sizeof_size_t, sizeof_Segment in *.
        pose proof (Z.div_mod segmentsize 8 ltac:(lia)) as Hd.
        replace (segmentsize - 16) with ((segmentsize / 8 - 2) * 8) by lia.
        apply Z.mod_mul. discriminate.
      - rewrite (arena_size_exact segmentsize Hseg).
        unfold sizeof_size_t, sizeof_Segment, size_max in *. lia. }
    destruct (allocate_all_tidy segmentsize round_size Hseg Hround sizes _ _ [] _ _ _
                                (tidy_new _ _ b w0) Hsizes Hrun Hblocks)
      as [_ [_ Hins' _ Hap']].
    cbn [app] in Hins', Hap'. split.
    + apply (Forall_impl _ _ _ Hins'). intros [p sz] [Hin _]. exact Hin.
    + apply (pairwise_impl _ _ _ Hap'). intros [p1 s1] [p2 s2] _ _ [Hdis _]. exact Hdis.
Qed.

End Consecutive.

(** ** The cursor and the capacity of the head segment *)

(** A call keeps the cursor within [arena_size()] unless it is a request
    on an arena without a head segment whose rounded size is larger. *)
Lemma allocate_keeps_cursor_bound segmentsize {B} `{BaseAllocator B}
      sz (a : arena_allocator B) w p a' w' :
  allocated a <= arena_size segmentsize ->
  segment a <> NULL \/ round_size sz <= arena_size segmentsize ->
  allocate segmentsize sz a w = Some (p, a', w') ->
  allocated a' <= arena_size segmentsize.
Proof.
  intros Hcur Hcase Ha. apply allocate_inv in Ha.
  destruct Ha as [(_ & _ & ns & b & h & h' & _ & _ & _ & _ & _ & -> & _)
                 |[(Hnew & ns & b & _ & _ & _ & -> & _)
                  |(_ & _ & Hfit & _ & -> & _)]]; cbn [allocated].
  - exact Hcur.
  - destruct Hnew as [Hnull | [Hlt _]]; [| lia].
    destruct Hcase as [Hseg | Hle]; [congruence | exact Hle].
  - exact Hfit.
Qed.

(** The first request on an arena always opens a full segment and sets the
    cursor to its rounded size, however large. *)
Lemma first_request_sets_cursor segmentsize {B} `{BaseAllocator B}
      sz (b : B) w new_segment b' :
  base_allocate segmentsize b = (new_segment, b') ->
  new_segment <> NULL ->
  exists a' w',
    allocate segmentsize sz (arena_allocator_new b) w
      = Some (new_segment + sizeof_Segment, a', w') /\
    allocated a' = round_size sz /\
    calls w' = calls w ++ [Allocated new_segment segmentsize].
Proof.
  intros Hb Hns. eexists _, _. split.
  - apply (allocate_new_head segmentsize sz (arena_allocator_new b) w new_segment b');
      [left; reflexivity | exact Hb | exact Hns].
  - split; reflexivity.
Qed.

(** C1.  The bound of the cursor by [arena_size()] does not survive a first
    request larger than a segment: on a fresh arena with 64-byte segments,
    [allocate(1000)] obtains one 64-byte block, returns the start of its
    48-byte data area, which cannot hold the 1000 bytes, and leaves the
    cursor at 1000. *)
Theorem first_large_request_overruns_segment :
  exists p a w,
    allocate 64 1000 (arena_allocator_new 4096) empty_world = Some (p, a, w) /\
    reachable 64 a w /\
    arena_size 64 = 48 /\
    allocated a = 1000 /\
    ~ allocated a <= arena_size 64 /\
    segment a = 4096 /\
    requests (calls w) = [(4096, 64)] /\
    p = 4096 + sizeof_Segment /\
    ~ inside (requests (calls w)) (p, 1000).
Proof.
  eexists _, _, _. split; [reflexivity |]. split; [| repeat split].
  - eapply (reach_allocate 64 (arena_allocator_new 4096) empty_world 1000).
    + apply reach_new. reflexivity.
    + unfold in_size_t, size_max. lia.
    + reflexivity.
  - vm_compute. intros Hle. apply Hle. reflexivity.
  - cbn. intros Hin. apply Exists_cons in Hin. destruct Hin as [[_ Hend] | Hin].
    + cbn in Hend. unfold sizeof_Segment in Hend. lia.
    + apply Exists_nil in Hin. exact Hin.
Qed.

(** C4.  Growing does not keep the bytes of every pointer [allocate] has
    returned.  The pointer that [allocate(1000)] returns on a fresh arena
    with 64-byte segments stands for 1000 bytes of which the segment holds
    48; [reallocate(1008, p, 1000)] obtains a dedicated block right behind
    that segment and returns the start of its data area, 80 bytes above
    [p], so that the 1000 bytes at [p] and the 1000 bytes at the result
    overlap and [memcpy] is called on overlapping ranges: the copy is
    undefined. *)
Theorem growing_an_overrunning_region_is_undefined :
  allocate 64 1000 (arena_allocator_new 4096) empty_world
    = Some (4112, arena_overrun, world_one) /\
  reachable 64 arena_overrun world_one /\
  ~ inside (requests (calls world_one)) (4112, 1000) /\
  (exists a' w',
      allocate 64 1008 arena_overrun world_one = Some (4192, a', w') /\
      requests (calls w') = [(4096, 64); (4176, 1024)]) /\
  overlap 4192 4112 1000 = true /\
  ~ disjoint (4192, 1000) (4112, 1000) /\
  reallocate 64 1008 4112 1000 arena_overrun world_one = None.
Proof.
  split; [reflexivity |]. split.
  { apply (reach_allocate 64 (arena_allocator_new 4096) empty_world 1000 4112).
    - apply reach_new. reflexivity.
    - unfold in_size_t, size_max. lia.
    - reflexivity. }
  split.
  { intros Hin. apply Exists_cons in Hin. destruct Hin as [[_ Hend] | Hin].
    - cbn in Hend. lia.
    - apply Exists_nil in Hin. exact Hin. }
  split; [eexists _, _; split; reflexivity |].
  split; [reflexivity |]. split; [| reflexivity].
  unfold disjoint. cbn. lia.
Qed.

(** ** Runs on concrete inputs *)

Lemma reachable_one : reachable 64 arena_one world_one.
Proof.
  apply (reach_allocate 64 (arena_allocator_new 4096) empty_world 16 4112).
  - apply reach_new. reflexivity.
  - unfold in_size_t, size_max. lia.
  - reflexivity.
Defined.

Lemma reachable_two : reachable 64 arena_two world_two.
Proof.
  apply (reach_allocate 64 arena_one world_one 1000 4192).
  - exact reachable_one.
  - unfold in_size_t, size_max. lia.
  - reflexivity.
Defined.

Lemma large_request_gets_dedicated_segment_witness :
  exists a' w',
    allocate 64 1000 arena_one world_one = Some (4192, a', w') /\
    calls w' = [Allocated 4096 64; Allocated 4176 1016] /\
    load 4176 w' = Some {| next := NULL; size := 1016 |} /\
    load 4096 w' = Some {| next := 4176; size := 64 |} /\
    segment a' = 4096.
Proof.
  destruct (large_request_gets_dedicated_segment
              64 1000 arena_one world_one {| next := NULL; size := 64 |} 4176 5200)
    as (a' & w' & Ha & Hc & _ & Hnew & Hhead & _ & Hseg & _).
  - cbn. unfold NULL. lia.
  - vm_compute. discriminate.
  - reflexivity.
  - reflexivity.
  - unfold NULL. lia.
  - cbn. lia.
  - exists a', w'. repeat split; assumption.
Defined.

Lemma exhausted_head_gets_new_segment_witness :
  exists a' w',
    allocate 64 16 arena_full world_one = Some (4192, a', w') /\
    calls w' = [Allocated 4096 64; Allocated 4176 64] /\
    load 4176 w' = Some {| next := 4096; size := 64 |} /\
    segment a' = 4176 /\ allocated a' = 16.
Proof.
  destruct (exhausted_head_gets_new_segment 64 16 arena_full world_one 4176 4256)
    as (a' & w' & Ha & Hc & Hnew & _ & Hseg & Hal & _).
  - vm_compute. reflexivity.
  - right. vm_compute. reflexivity.
  - reflexivity.
  - unfold NULL. lia.
  - exists a', w'. repeat split; assumption.
Defined.

Lemma large_request_keeps_cursor_witness :
  exists a' w' a'',
    allocate 64 1000 arena_one world_one = Some (4192, a', w') /\
    segment a' = 4096 /\ allocated a' = 16 /\
    allocate 64 8 a' w' = Some (4128, a'', w').
Proof.
  destruct (large_request_keeps_cursor
              64 1000 arena_one world_one {| next := NULL; size := 64 |} 4176 5200)
    as (a' & w' & Ha & Hseg & Hal & Hnext).
  - cbn. unfold NULL. lia.
  - vm_compute. discriminate.
  - reflexivity.
  - reflexivity.
  - unfold NULL. lia.
  - cbn. lia.
  - destruct (Hnext 8) as (a2 & a2' & _ & Ha2 & _).
    + vm_compute. reflexivity.
    + vm_compute. discriminate.
    + exists a', w', a2'. repeat split; assumption.
Defined.

Lemma reallocate_keeps_or_copies_witness :
  reallocate 64 8 4112 16 arena_one world_one = Some (4112, arena_one, world_one) /\
  exists a' w2,
    reallocate 64 32 4112 16 arena_one world_one = Some (4128, a', w2) /\
    (forall i, 0 <= i < 16 -> bytes w2 (4128 + i) = bytes world_one (4112 + i)) /\
    releases (calls w2) = [].
Proof.
  split.
  - apply (reallocate_keeps_or_copies 64 8 4112 16 arena_one world_one).
    + intros _. eexists. reflexivity.
    + intros n. cbn. unfold NULL. lia.
    + intros ret a' w' Ha. vm_compute in Ha. injection Ha as <- _ _.
      unfold disjoint. cbn. lia.
    + lia.
  - destruct (reallocate_keeps_or_copies 64 32 4112 16 arena_one world_one)
      as [_ Hgrow].
    + intros _. eexists. reflexivity.
    + intros n. cbn. unfold NULL. lia.
    + intros ret a' w' Ha. vm_compute in Ha. injection Ha as <- _ _.
      unfold disjoint. cbn. lia.
    + destruct Hgrow as (ret & a' & w1 & w2 & Ha & Hre & Hcopy & _ & Hrel & _); [lia |].
      injection Ha as <- _ _.
      exists a', w2. repeat split; assumption.
Defined.

Lemma returned_pointer_is_word_offset_in_segment_witness :
  exists s n k,
    In (s, n) [(4096, 64)] /\ 0 <= k /\
    4128 = s + (sizeof_Segment + k * sizeof_size_t) /\
    (aligned s -> aligned 4128).
Proof.
  destruct (returned_pointer_is_word_offset_in_segment
              64 32 arena_one world_one 4128 arena_full world_one)
    as (_ & s & n & k & Hin & Hk & Hp & Hal & _).
  - exact reachable_one.
  - unfold in_size_t, size_max. lia.
  - reflexivity.
  - exists s, n, k. repeat split; assumption.
Defined.

Lemma destructor_releases_every_segment_witness :
  exists l b' w',
    destroy 2 arena_two world_two = Some (b', w') /\
    l ≡ₚ [(4096, 64); (4176, 1016)] /\
    b' = foldl (fun b r => base_deallocate r.1 r.2 b) 5200 l /\
    releases (calls w') = l /\
    length (releases (calls w')) = 2%nat.
Proof.
  destruct (destructor_releases_every_segment 64 arena_two world_two 2)
    as (l & b' & w' & Hd & Hperm & Hb & _ & Hrel & _ & _ & _ & _ & Hlen & _).
  - exact reachable_two.
  - compute_done.
  - cbn. lia.
  - exists l, b', w'. repeat split; assumption.
Defined.

Lemma consecutive_allocations_are_apart_witness :
  allocate_all 64 [16; 16; 16; 16] (arena_allocator_new 4096) empty_world
    = Some ([4112; 4128; 4144; 4192], arena_four, world_four) /\
  Forall (inside [(4096, 64); (4176, 64)])
         [(4112, 16); (4128, 16); (4144, 16); (4192, 16)] /\
  pairwise disjoint [(4112, 16); (4128, 16); (4144, 16); (4192, 16)].
Proof.
  split; [reflexivity |].
  destruct (consecutive_allocations_are_apart
              64 [16; 16; 16; 16] 4096 empty_world [4112; 4128; 4144; 4192]
              arena_four world_four)
    as (_ & Hin & Hdis & _).
  - unfold sizeof_Segment. lia.
  - repeat (apply Forall_cons_2 || apply Forall_nil_2); vm_compute; split; discriminate.
  - reflexivity.
  - repeat (apply Forall_cons_2 || apply Forall_nil_2 || split); unfold disjoint; cbn; lia.
  - split; [exact Hin | exact Hdis].
Defined.

(** C5, requests of no bytes: [allocate(0)] does not move the cursor, so two
    of them in a row get the same address in the same segment and the
    addresses do not increase strictly in call order. *)
Lemma zero_size_requests_share_an_address :
  exists a w,
    Forall (fun sz => 0 <= sz <= arena_size 64) [0; 0] /\
    allocate_all 64 [0; 0] (arena_allocator_new 4096) empty_world
      = Some ([4112; 4112], a, w) /\
    requests (calls w) = [(4096, 64)] /\
    pairwise disjoint (requests (calls w)) /\
    same_segment (requests (calls w)) 4112 4112 /\
    ~ pairwise (fun p q => same_segment (requests (calls w)) p q -> p < q) [4112; 4112].
Proof.
  exists {| base := 4176; segment := 4096; allocated := 0 |}, world_one.
  assert (same_segment (requests (calls world_one)) 4112 4112) as Hss.
  { apply Exists_cons_hd. unfold in_data, sizeof_Segment. cbn. lia. }
  split; [repeat (apply Forall_cons_2 || apply Forall_nil_2); vm_compute; split; discriminate |].
  split; [reflexivity |]. split; [reflexivity |].
  split; [repeat (apply Forall_cons_2 || apply Forall_nil_2 || split) |].
  split; [exact Hss |].
  intros [Hlt _]. apply Forall_cons in Hlt. destruct Hlt as [Hlt _].
  specialize (Hlt Hss). lia.
Qed.

(** With a segment size that is not a whole number of words the rounded
    size of a first request can exceed the data area: 44 bytes fit the
    60-byte segment, the 48 bytes they are rounded to do not. *)
Lemma rounded_size_may_exceed_segment :
  exists a w,
    allocate 60 44 (arena_allocator_new 4096) empty_world = Some (4112, a, w) /\
    arena_size 60 = 44 /\
    round_size 44 = 48 /\
    requests (calls w) = [(4096, 60)] /\
    inside [(4096, 60)] (4112, 44) /\
    ~ inside [(4096, 60)] (4112, 48).
Proof.
  eexists _, _. split; [reflexivity |]. split; [reflexivity |].
  split; [reflexivity |]. split; [reflexivity |]. split.
  - apply Exists_cons_hd. unfold in_data, sizeof_Segment. cbn. lia.
  - intros Hin. apply Exists_cons in Hin. destruct Hin as [[_ Hend] | Hin].
    + cbn in Hend. lia.
    + apply Exists_nil in Hin. exact Hin.
Qed.

(** * Further properties of the code *)

(** ** Rounding and capacity *)

(** X1.  The rounding of a request size ([allocate], first statement): the
    result is a [size_t] multiple of the word size and rounding it again
    changes nothing; up to [SIZE_MAX - 7] it is the least multiple of the
    word size at or above the size, less than a word above it; the seven
    sizes above that wrap around to zero. *)
Theorem round_size_rounds_up_or_wraps n :
  in_size_t n ->
  in_size_t (round_size n) /\
  round_size n mod sizeof_size_t = 0 /\
  round_size (round_size n) = round_size n /\
  (n <= size_max - sizeof_size_t ->
   n <= round_size n < n + sizeof_size_t /\
   forall m, n <= m -> m mod sizeof_size_t = 0 -> round_size n <= m) /\
  (size_max - sizeof_size_t < n -> round_size n = 0).
Proof.
  intros Hn. split; [apply round_size_range; exact Hn |].
  split; [apply round_size_multiple |].
  split; [apply round_size_fixed, round_size_multiple |].
  unfold in_size_t in Hn. split.
  - intros Hle. split; [apply round_size_exact; lia |].
    intros m Hm Hmul.
    unfold round_size, to_size_t, size_max, sizeof_size_t in *.
    destruct (n mod 8 =? 0) eqn:E; [lia |]. apply Z.eqb_neq in E.
    pose proof (Z.div_mod n 8 ltac:(lia)) as Hd.
    pose proof (Z.mod_pos_bound n 8 ltac:(lia)) as Hb.
    pose proof (Z.div_mod m 8 ltac:(lia)) as Hdm.
    rewrite Z.mod_small; lia.
  - intros Hbig. unfold round_size, to_size_t, size_max, sizeof_size_t in *.
    pose proof (Z.div_mod n 8 ltac:(lia)) as Hd.
    pose proof (Z.mod_pos_bound n 8 ltac:(lia)) as Hm.
    assert (n / 8 = 2 ^ 61 - 1) as Hq by lia.
    destruct (n mod 8 =? 0) eqn:E; [apply Z.eqb_eq in E; lia |].
    rewrite Hq. reflexivity.
Qed.

Lemma round_size_rounds_up_or_wraps_witness :
  round_size 13 = 16 /\ round_size (2 ^ 64 - 3) = 0.
Proof.
  assert (in_size_t 13) as H13 by (unfold in_size_t, size_max; lia).
  assert (in_size_t (2 ^ 64 - 3)) as Htop by (unfold in_size_t, size_max; lia).
  destruct (round_size_rounds_up_or_wraps 13 H13) as (_ & _ & _ & _ & _).
  destruct (round_size_rounds_up_or_wraps (2 ^ 64 - 3) Htop) as (_ & _ & _ & _ & Hwrap).
  split; [reflexivity |]. apply Hwrap. unfold size_max, sizeof_size_t. lia.
Defined.

(** X2.  [arena_size()] is [segmentsize - sizeof(Segment)] computed in
    [size_t]: from 16 bytes on it is the data area of a segment, 16 bytes
    short of it; below, the subtraction wraps around and the capacity
    comes out larger than the segment, larger even than any header plus
    request that still fits [size_t]. *)
Theorem arena_size_exact_or_wraps segmentsize :
  in_size_t segmentsize ->
  in_size_t (arena_size segmentsize) /\
  (sizeof_Segment <= segmentsize ->
   arena_size segmentsize = segmentsize - sizeof_Segment) /\
  (segmentsize < sizeof_Segment ->
   arena_size segmentsize = size_max - sizeof_Segment + segmentsize /\
   segmentsize < arena_size segmentsize /\
   forall sz, sizeof_Segment + sz < size_max -> sz < arena_size segmentsize).
Proof.
  intros Hs. split; [apply to_size_t_range |].
  unfold arena_size, to_size_t, in_size_t, size_max, sizeof_Segment in *. split.
  - intros Hle. apply Z.mod_small. lia.
  - intros Hlt.
    assert ((segmentsize - 16) mod 2 ^ 64 = 2 ^ 64 - 16 + segmentsize) as ->.
    { symmetry. apply (Z.mod_unique _ _ (-1)); lia. }
    split; [reflexivity |]. split; [lia |]. intros sz Hsz. lia.
Qed.

Lemma arena_size_exact_or_wraps_witness :
  arena_size 65536 = 65520 /\ arena_size 8 = 2 ^ 64 - 8.
Proof.
  assert (in_size_t 65536) as Hbig by (unfold in_size_t, size_max; lia).
  assert (in_size_t 8) as Hsmall by (unfold in_size_t, size_max; lia).
  destruct (arena_size_exact_or_wraps 65536 Hbig) as (_ & Hexact & _).
  destruct (arena_size_exact_or_wraps 8 Hsmall) as (_ & _ & Hwrap).
  split.
  - rewrite Hexact; [reflexivity | unfold sizeof_Segment; lia].
  - destruct Hwrap as (-> & _); [unfold sizeof_Segment; lia | reflexivity].
Defined.

(** ** What one call of [allocate] does *)

Section Effects.

Variable segmentsize : Z.
Context {B : Type} `{BaseAllocator B}.

(** X3.  The third branch of [allocate]: with a head segment, a rounded
    size below [arena_size()] and a cursor that stays within
    [arena_size()] when the rounded size is added, the request is served
    at the cursor without any call to the backing allocator and without
    any write to memory; the head stays, the cursor moves on by the rounded
    size (exactly, when the sum fits [size_t]) and stays within the
    capacity. *)
Theorem head_with_room_serves_request sz (a : arena_allocator B) w :
  segment a <> NULL ->
  round_size sz < arena_size segmentsize ->
  to_size_t (allocated a + round_size sz) <= arena_size segmentsize ->
  exists a',
    allocate segmentsize sz a w
      = Some (segment a + sizeof_Segment + allocated a, a', w) /\
    base a' = base a /\
    segment a' = segment a /\
    allocated a' = to_size_t (allocated a + round_size sz) /\
    allocated a' <= arena_size segmentsize /\
    (0 <= allocated a -> 0 <= round_size sz ->
     allocated a + round_size sz < size_max ->
     allocated a' = allocated a + round_size sz).
Proof.
  intros Hseg Hsmall Hfit. eexists. split; [apply allocate_bump; assumption |].
  cbn [base segment allocated]. repeat split; try assumption.
  intros Hcur Hr Hsum. apply to_size_t_small. unfold in_size_t. lia.
Qed.

(** X4.  Whatever branch it takes, a successful [allocate] never gives a
    block back, never writes payload bytes and calls the backing allocator
    at most once.  Without a call, memory, head and backing allocator are
    as before.  With a call, the block is asked for with [segmentsize] or
    with [sizeof(Segment)] plus the rounded size, the pointer returned is
    the start of its data area, the head is the old head or the new block,
    never [NULL], and no header other than the new block's and the old
    head's is written. *)
Theorem allocate_effects sz (a : arena_allocator B) w p a' w' :
  allocate segmentsize sz a w = Some (p, a', w') ->
  bytes w' = bytes w /\
  releases (calls w') = releases (calls w) /\
  segment a' <> NULL /\
  ((w' = w /\ base a' = base a /\ segment a' = segment a /\
    p = segment a + sizeof_Segment + allocated a)
   \/
   exists q n b,
     base_allocate n (base a) = (q, b) /\
     q <> NULL /\
     (n = segmentsize \/ n = to_size_t (sizeof_Segment + round_size sz)) /\
     calls w' = calls w ++ [Allocated q n] /\
     p = q + sizeof_Segment /\
     base a' = b /\
     (segment a' = segment a \/ segment a' = q) /\
     forall s, s <> q -> s <> segment a -> load s w' = load s w).
Proof.
  intros Ha. apply allocate_inv in Ha.
  destruct Ha as [(Hseg & _ & ns & b & h & h' & Hb & Hns & _ & _ & -> & -> & ->)
                 |[(_ & ns & b & Hb & Hns & -> & -> & ->)
                  |(Hseg & _ & _ & -> & -> & ->)]];
    cbn [bytes calls base segment].
  - split; [reflexivity |]. split; [rewrite releases_app, app_nil_r; reflexivity |].
    split; [exact Hseg |]. right.
    exists ns, (to_size_t (sizeof_Segment + round_size sz)), b.
    split; [exact Hb |]. split; [exact Hns |]. split; [right; reflexivity |].
    split; [reflexivity |]. split; [reflexivity |]. split; [reflexivity |].
    split; [left; reflexivity |].
    intros s Hs1 Hs2. unfold load. cbn [headers].
    rewrite !lookup_insert_ne by congruence. reflexivity.
  - split; [reflexivity |]. split; [rewrite releases_app, app_nil_r; reflexivity |].
    split; [exact Hns |]. right.
    exists ns, segmentsize, b.
    split; [exact Hb |]. split; [exact Hns |]. split; [left; reflexivity |].
    split; [reflexivity |]. split; [reflexivity |]. split; [reflexivity |].
    split; [right; reflexivity |].
    intros s Hs1 _. unfold load. cbn [headers].
    rewrite lookup_insert_ne by congruence. reflexivity.
  - split; [reflexivity |]. split; [reflexivity |]. split; [exact Hseg |].
    left. repeat split.
Qed.

(** X5.  A request of more than [SIZE_MAX - 7] bytes is rounded to zero:
    with a head segment whose cursor is within a capacity of at least one
    byte it succeeds, returns the address at the cursor and reserves
    nothing, leaving the arena and memory exactly as they were. *)
Theorem oversized_request_reserves_nothing sz (a : arena_allocator B) w :
  size_max - sizeof_size_t < sz < size_max ->
  segment a <> NULL ->
  0 < arena_size segmentsize ->
  0 <= allocated a <= arena_size segmentsize ->
  round_size sz = 0 /\
  allocate segmentsize sz a w = Some (segment a + sizeof_Segment + allocated a, a, w).
Proof.
  intros Hsz Hseg Hcap Hcur.
  assert (round_size sz = 0) as Hr.
  { unfold round_size, to_size_t, size_max, sizeof_size_t in *.
    pose proof (Z.div_mod sz 8 ltac:(lia)) as Hd.
    pose proof (Z.mod_pos_bound sz 8 ltac:(lia)) as Hm.
    assert (sz / 8 = 2 ^ 61 - 1) as Hq by lia.
    destruct (sz mod 8 =? 0) eqn:E; [apply Z.eqb_eq in E; lia |].
    rewrite Hq. reflexivity. }
  split; [exact Hr |].
  assert (to_size_t (allocated a + round_size sz) = allocated a) as Hsum.
  { rewrite Hr, Z.add_0_r. apply to_size_t_small.
    pose proof (to_size_t_range (segmentsize - sizeof_Segment)) as Hrange.
    unfold arena_size, in_size_t in *. lia. }
  rewrite (allocate_bump segmentsize sz a w Hseg); [| rewrite Hr; exact Hcap | lia].
  rewrite Hsum. destruct a. reflexivity.
Qed.

End Effects.

Lemma head_with_room_serves_request_witness :
  exists a',
    allocate 64 13 arena_one world_one = Some (4128, a', world_one) /\
    allocated a' = 32.
Proof.
  destruct (head_with_room_serves_request 64 13 arena_one world_one)
    as (a' & Ha & _ & _ & _ & _ & Hexact).
  - cbn. unfold NULL. lia.
  - vm_compute. reflexivity.
  - vm_compute. discriminate.
  - exists a'. split; [exact Ha |]. apply Hexact; vm_compute; try discriminate; reflexivity.
Defined.

Lemma allocate_effects_witness :
  releases (calls world_two) = [] /\ bytes world_two = bytes world_one.
Proof.
  destruct (allocate_effects 64 1000 arena_one world_one 4192 arena_two world_two)
    as (Hbytes & Hrel & _).
  - reflexivity.
  - split; [exact Hrel | exact Hbytes].
Defined.

Lemma oversized_request_reserves_nothing_witness :
  allocate 64 (2 ^ 64 - 1) arena_one world_one = Some (4128, arena_one, world_one).
Proof.
  apply (oversized_request_reserves_nothing 64 (2 ^ 64 - 1) arena_one world_one).
  - unfold size_max, sizeof_size_t. lia.
  - cbn. unfold NULL. lia.
  - vm_compute. reflexivity.
  - vm_compute. split; discriminate.
Defined.

(** ** Sequences of requests *)

Lemma total_rounded_nonneg sizes :
  Forall (fun sz => 0 <= sz /\ sz + sizeof_size_t <= size_max) sizes ->
  0 <= total_rounded sizes.
Proof.
  induction 1 as [| sz sizes [H0 Hmax] _ IH]; cbn [total_rounded]; [lia |].
  pose proof (round_size_exact sz H0 Hmax). lia.
Qed.

Section Sequences.

Variable segmentsize : Z.
Context {B : Type} `{BaseAllocator B}.

(** Requests that fit behind the cursor are served one after the other
    from the head segment. *)
Lemma allocate_all_packs sizes :
  forall (a : arena_allocator B) w,
    segment a <> NULL ->
    0 <= allocated a ->
    Forall (fun sz => 0 <= sz /\ sz + sizeof_size_t <= size_max) sizes ->
    Forall (fun sz => round_size sz < arena_size segmentsize) sizes ->
    allocated a + total_rounded sizes <= arena_size segmentsize ->
    allocate_all segmentsize sizes a w =
      Some (bump_from (segment a + sizeof_Segment + allocated a) sizes,
            {| base := base a; segment := segment a;
               allocated := allocated a + total_rounded sizes |}, w).
Proof.
  induction sizes as [| sz sizes IH]; intros a w Hseg Hcur Hrange Hsmall Hfit;
    cbn [allocate_all bump_from total_rounded] in *.
  - rewrite Z.add_0_r. destruct a. reflexivity.
  - apply Forall_cons in Hrange. destruct Hrange as [[H0 Hmax] Hrange].
    apply Forall_cons in Hsmall. destruct Hsmall as [Hsz Hsmall].
    pose proof (round_size_exact sz H0 Hmax) as Hr.
    pose proof (total_rounded_nonneg sizes Hrange) as Htot.
    pose proof (to_size_t_range (segmentsize - sizeof_Segment)) as Hcap.
    assert (to_size_t (allocated a + round_size sz) = allocated a + round_size sz) as Hsum.
    { apply to_size_t_small. unfold arena_size, in_size_t in *. lia. }
    rewrite (allocate_bump segmentsize sz a w Hseg Hsz) by (rewrite Hsum; lia).
    cbn [mbind option_bind]. rewrite Hsum.
    rewrite IH; cbn [base segment allocated]; try assumption; try lia.
    cbn [mbind option_bind].
    rewrite !Z.add_assoc. reflexivity.
Qed.

(** X6.  Requests whose rounded sizes add up to at most [arena_size()]
    (each of the later ones below it) share the first segment of a fresh
    arena: one block of [segmentsize] bytes is obtained, the regions lie
    back to back from the start of its data area, each taking its rounded
    size, and the cursor ends at their sum. *)
Theorem small_requests_are_packed_back_to_back sz sizes (b : B) w new_segment b' :
  Forall (fun sz => 0 <= sz /\ sz + sizeof_size_t <= size_max) (sz :: sizes) ->
  Forall (fun sz => round_size sz < arena_size segmentsize) sizes ->
  total_rounded (sz :: sizes) <= arena_size segmentsize ->
  base_allocate segmentsize b = (new_segment, b') ->
  new_segment <> NULL ->
  allocate_all segmentsize (sz :: sizes) (arena_allocator_new b) w =
    Some (bump_from (new_segment + sizeof_Segment) (sz :: sizes),
          {| base := b'; segment := new_segment;
             allocated := total_rounded (sz :: sizes) |},
          {| headers := <[new_segment := {| next := NULL; size := segmentsize |}]>
                          (headers w);
             bytes := bytes w;
             calls := calls w ++ [Allocated new_segment segmentsize] |}).
Proof.
  intros Hrange Hsmall Hfit Hb Hns.
  apply Forall_cons in Hrange. destruct Hrange as [[H0 Hmax] Hrange].
  pose proof (round_size_exact sz H0 Hmax) as Hr.
  cbn [allocate_all bump_from total_rounded] in *.
  rewrite (allocate_new_head segmentsize sz (arena_allocator_new b) w new_segment b')
    by (try assumption; left; reflexivity).
  cbn [mbind option_bind].
  rewrite allocate_all_packs; cbn [base segment allocated]; try assumption; try lia.
  reflexivity.
Qed.

(** A successful call leaves a head segment. *)
Lemma allocate_leaves_head sz (a : arena_allocator B) w p a' w' :
  allocate segmentsize sz a w = Some (p, a', w') -> segment a' <> NULL.
Proof.
  intros Ha. apply allocate_inv in Ha.
  destruct Ha as [(Hseg & _ & ns & b & h & h' & _ & _ & _ & _ & _ & -> & _)
                 |[(_ & ns & b & _ & Hns & _ & -> & _)
                  |(Hseg & _ & _ & _ & -> & _)]]; cbn [segment]; assumption.
Qed.

Lemma allocate_all_keeps_cursor_bound sizes :
  forall (a : arena_allocator B) w ps a' w',
    segment a <> NULL ->
    allocated a <= arena_size segmentsize ->
    allocate_all segmentsize sizes a w = Some (ps, a', w') ->
    segment a' <> NULL /\ allocated a' <= arena_size segmentsize.
Proof.
  induction sizes as [| sz sizes IH]; intros a w ps a' w' Hseg Hcur;
    cbn [allocate_all].
  - intros [= _ <- _]. split; assumption.
  - destruct (allocate segmentsize sz a w) as [[[p a1] w1] |] eqn:Ha; [| discriminate].
    cbn [mbind option_bind].
    destruct (allocate_all segmentsize sizes a1 w1) as [[[ps1 a2] w2] |] eqn:Hall;
      [| discriminate].
    cbn [mbind option_bind]. intros [= _ <- _].
    apply (IH a1 w1 ps1 a2 w2); [| | exact Hall].
    + exact (allocate_leaves_head _ _ _ _ _ _ Ha).
    + exact (allocate_keeps_cursor_bound segmentsize sz a w p a1 w1 Hcur
               (or_introl Hseg) Ha).
Qed.

(** X7.  When the first request on a fresh arena has a rounded size of at
    most [arena_size()], the cursor is within [arena_size()] after every
    later request, of whatever size: a sequence of requests that starts
    this way ends with a head segment and a cursor within its capacity. *)
Theorem cursor_stays_within_capacity sz sizes (b : B) w ps a w' :
  round_size sz <= arena_size segmentsize ->
  allocate_all segmentsize (sz :: sizes) (arena_allocator_new b) w = Some (ps, a, w') ->
  segment a <> NULL /\ 0 <= arena_size segmentsize /\
  allocated a <= arena_size segmentsize.
Proof.
  intros Hfirst. cbn [allocate_all].
  destruct (allocate segmentsize sz (arena_allocator_new b) w) as [[[p a1] w1] |] eqn:Ha;
    [| discriminate].
  cbn [mbind option_bind].
  destruct (allocate_all segmentsize sizes a1 w1) as [[[ps1 a2] w2] |] eqn:Hall;
    [| discriminate].
  cbn [mbind option_bind]. intros [= _ <- _].
  pose proof (to_size_t_range (segmentsize - sizeof_Segment)) as Hcap.
  assert (0 <= arena_size segmentsize) as Hpos by (unfold arena_size, in_size_t in *; lia).
  destruct (allocate_all_keeps_cursor_bound sizes a1 w1 ps1 a2 w2) as [Hseg Hcur];
    [| | exact Hall | split; [exact Hseg | split; [exact Hpos | exact Hcur]]].
  - exact (allocate_leaves_head _ _ _ _ _ _ Ha).
  - apply (allocate_keeps_cursor_bound segmentsize sz (arena_allocator_new b) w p a1 w1);
      [exact Hpos | right; exact Hfirst | exact Ha].
Qed.

(** X8.  The first request on an arena opens a full segment whatever its
    size: the block asked for has [segmentsize] bytes, the pointer returned
    is the start of its data area and the cursor is the rounded size.  When
    the rounded size is larger than [arena_size()] the cursor is beyond the
    capacity and the region of the rounded size ends past the block. *)
Theorem first_request_opens_full_segment sz (b : B) w new_segment b' :
  base_allocate segmentsize b = (new_segment, b') ->
  new_segment <> NULL ->
  exists a' w',
    allocate segmentsize sz (arena_allocator_new b) w
      = Some (new_segment + sizeof_Segment, a', w') /\
    calls w' = calls w ++ [Allocated new_segment segmentsize] /\
    load new_segment w' = Some {| next := NULL; size := segmentsize |} /\
    segment a' = new_segment /\
    allocated a' = round_size sz /\
    (sizeof_Segment <= segmentsize < size_max ->
     arena_size segmentsize < round_size sz ->
     ~ allocated a' <= arena_size segmentsize /\
     new_segment + segmentsize < new_segment + sizeof_Segment + round_size sz).
Proof.
  intros Hb Hns. eexists _, _. split.
  - apply (allocate_new_head segmentsize sz (arena_allocator_new b) w new_segment b');
      [left; reflexivity | exact Hb | exact Hns].
  - unfold load. cbn [calls headers segment allocated].
    split; [reflexivity |]. split; [apply lookup_insert_eq |].
    split; [reflexivity |]. split; [reflexivity |].
    intros Hseg Hbig.
    assert (arena_size segmentsize = segmentsize - sizeof_Segment) as Hcap.
    { unfold arena_size. apply to_size_t_small.
      unfold in_size_t, sizeof_Segment in *. lia. }
    rewrite Hcap in *. unfold sizeof_Segment in *. lia.
Qed.

End Sequences.

Lemma small_requests_are_packed_back_to_back_witness :
  allocate_all 64 [13; 5; 16] (arena_allocator_new 4096) empty_world
    = Some ([4112; 4128; 4136],
            {| base := 4176; segment := 4096; allocated := 40 |}, world_one).
Proof.
  apply (small_requests_are_packed_back_to_back 64 13 [5; 16] 4096 empty_world 4096 4176).
  - repeat (apply Forall_cons_2 || apply Forall_nil_2);
      unfold size_max, sizeof_size_t; lia.
  - repeat (apply Forall_cons_2 || apply Forall_nil_2); vm_compute; reflexivity.
  - vm_compute. discriminate.
  - reflexivity.
  - unfold NULL. lia.
Defined.

Lemma cursor_stays_within_capacity_witness :
  segment arena_four <> NULL /\ 0 <= arena_size 64 /\ allocated arena_four <= arena_size 64.
Proof.
  apply (cursor_stays_within_capacity 64 16 [16; 16; 16] 4096 empty_world
           [4112; 4128; 4144; 4192] arena_four world_four).
  - vm_compute. discriminate.
  - reflexivity.
Defined.

Lemma first_request_opens_full_segment_witness :
  exists a' w',
    allocate 64 1000 (arena_allocator_new 4096) empty_world = Some (4112, a', w') /\
    allocated a' = 1000 /\
    4096 + 64 < 4096 + sizeof_Segment + round_size 1000.
Proof.
  destruct (first_request_opens_full_segment 64 1000 4096 empty_world 4096 4176)
    as (a' & w' & Ha & _ & _ & _ & Hcur & Hover).
  - reflexivity.
  - unfold NULL. lia.
  - exists a', w'. split; [exact Ha |]. split; [exact Hcur |].
    apply Hover.
    + unfold sizeof_Segment, size_max. lia.
    + vm_compute. reflexivity.
Defined.

(** ** The chain, over the whole life of an arena *)

Lemma chain_nonnull w s l : chain w s l -> Forall (fun r => r.1 <> NULL) l.
Proof.
  induction 1 as [| s h l Hs _ _ IH]; [constructor |].
  apply Forall_cons. split; [exact Hs | exact IH].
Qed.

Lemma chain_from_null w l : chain w NULL l -> l = [].
Proof. intros Hc. inversion Hc; [reflexivity | congruence]. Qed.

Section Lifetime.

Variable segmentsize : Z.
Context {B : Type} `{BaseAllocator B}.

(** The head is always a full segment: its header records [segmentsize]. *)
Lemma reachable_head_header (a : arena_allocator B) w :
  reachable segmentsize a w ->
  NoDup (requests (calls w)).*1 ->
  segment a <> NULL ->
  exists h, load (segment a) w = Some h /\ size h = segmentsize.
Proof.
  revert a w.
  apply (reachable_invariant segmentsize
           (fun a w => NoDup (requests (calls w)).*1 ->
                       segment a <> NULL ->
                       exists h, load (segment a) w = Some h /\ size h = segmentsize)).
  - intros b w _ _ Hc. destruct Hc. reflexivity.
  - intros a w sz p a' w' Hr IH Hsz Ha Hnd.
    destruct (reachable_cursor segmentsize a w Hr) as (_ & _ & Hin).
    apply allocate_inv in Ha.
    destruct Ha as [(Hseg & _ & ns & b & h & h' & _ & Hns & Hh & Hh' & _ & -> & ->)
                   |[(_ & ns & b & _ & Hns & _ & -> & ->)
                    |(Hseg & _ & _ & _ & -> & ->)]];
      cbn [segment calls] in *; unfold load; cbn [headers].
    + intros _. rewrite requests_app, fmap_app in Hnd. cbn in Hnd.
      apply NoDup_app in Hnd. destruct Hnd as (Hnd & Hfresh & _).
      destruct (IH Hnd Hseg) as (h0 & Hh0 & Hsize).
      rewrite Hh in Hh0. injection Hh0 as <-.
      destruct (Hin Hseg) as [_ [n Hn]].
      assert (ns <> segment a) as Hne.
      { intros ->. apply (Hfresh (segment a)); [| left].
        apply list_elem_of_In in Hn. apply (list_elem_of_fmap_2 fst) in Hn. exact Hn. }
      rewrite decide_False in Hh' by exact Hne. subst h'.
      rewrite lookup_insert_eq. eexists. split; [reflexivity | exact Hsize].
    + intros _. rewrite lookup_insert_eq. eexists. split; reflexivity.
    + exact (IH Hnd).
  - intros a w w' IH Hh Hc Hnd Hseg. unfold load. rewrite Hh.
    rewrite Hc in Hnd. exact (IH Hnd Hseg).
Qed.

(** X9.  While the backing allocator never hands out an address twice,
    the headers form a proper list in every state of an arena: following
    [next] from the head reaches [NULL] after visiting each block obtained
    from the backing allocator exactly once, each header records the size
    that was asked for its block, and the head, when there is one, is a
    full segment of [segmentsize] bytes; an arena without a head has
    obtained nothing. *)
Theorem segment_chain_is_a_list_of_the_blocks (a : arena_allocator B) w :
  reachable segmentsize a w ->
  NoDup (requests (calls w)).*1 ->
  exists l,
    chain w (segment a) l /\
    l ≡ₚ requests (calls w) /\
    NoDup l.*1 /\
    Forall (fun r => r.1 <> NULL) l /\
    (segment a <> NULL -> exists l', l = (segment a, segmentsize) :: l') /\
    (segment a = NULL -> requests (calls w) = []).
Proof.
  intros Hr Hnd.
  destruct (reachable_chain segmentsize a w Hr Hnd) as (_ & l & Hchain & Hperm).
  exists l. split; [exact Hchain |]. split; [exact Hperm |].
  split; [rewrite Hperm; exact Hnd |].
  split; [exact (chain_nonnull _ _ _ Hchain) |]. split.
  - intros Hseg.
    destruct (chain_head _ _ _ Hchain Hseg) as (h & l' & -> & Hh & _).
    destruct (reachable_head_header a w Hr Hnd Hseg) as (h0 & Hh0 & Hsize).
    rewrite Hh in Hh0. injection Hh0 as <-. rewrite Hsize. eauto.
  - intros Hnull. rewrite Hnull in Hchain. apply chain_from_null in Hchain.
    subst l. symmetry in Hperm. apply Permutation_nil_r in Hperm. exact Hperm.
Qed.

(** X10.  No sequence of [allocate], [deallocate] and [reallocate] calls
    ever gives a block back to the backing allocator: [deallocate] leaves
    the arena and memory as they are, and the log of a reachable state
    holds no release. *)
Theorem nothing_is_released_before_destruction (a : arena_allocator B) w :
  reachable segmentsize a w ->
  releases (calls w) = [] /\
  forall pointer sz, deallocate pointer sz a w = (a, w).
Proof.
  intros Hr. split; [| reflexivity]. revert a w Hr.
  apply (reachable_invariant segmentsize (fun _ w => releases (calls w) = [])).
  - intros b w ->. reflexivity.
  - intros a w sz p a' w' _ IH _ Ha.
    destruct (allocate_frame _ _ _ _ _ _ _ Ha) as [_ [-> | (q & n & ->)]]; [exact IH |].
    rewrite releases_app, IH. reflexivity.
  - intros a w w' IH _ ->. exact IH.
Qed.

End Lifetime.

Lemma segment_chain_is_a_list_of_the_blocks_witness :
  exists l,
    chain world_two 4096 l /\ l ≡ₚ [(4096, 64); (4176, 1016)] /\
    exists l', l = (4096, 64) :: l'.
Proof.
  destruct (segment_chain_is_a_list_of_the_blocks 64 arena_two world_two)
    as (l & Hchain & Hperm & _ & _ & Hhead & _).
  - exact reachable_two.
  - compute_done.
  - exists l. split; [exact Hchain |]. split; [exact Hperm |].
    apply Hhead. cbn. unfold NULL. lia.
Defined.

Lemma nothing_is_released_before_destruction_witness :
  releases (calls world_two) = [].
Proof.
  destruct (nothing_is_released_before_destruction 64 arena_two world_two) as [Hrel _].
  - exact reachable_two.
  - exact Hrel.
Defined.

(** ** Growing always moves *)

(** X11.  [reallocate] never grows a region in place, not even the last
    one of the head segment with room behind it: growing a region of at
    least one byte that an earlier allocation returned yields a different
    pointer, to a region that does not overlap the old one and starts with
    its bytes; the old region keeps its bytes and stays allocated. *)
Theorem growing_moves_the_region
        segmentsize {B} `{BaseAllocator B} sizes (b : B) w0 ps a w p old newsize :
  sizeof_Segment <= segmentsize <= 2 ^ 63 ->
  Forall (fun sz => 0 <= sz <= arena_size segmentsize) sizes ->
  allocate_all segmentsize sizes (arena_allocator_new b) w0 = Some (ps, a, w) ->
  In (p, old) (zip ps sizes) ->
  0 < old < newsize ->
  newsize <= arena_size segmentsize ->
  (forall n, (base_allocate n (base a)).1 <> NULL) ->
  (forall ret a' w', allocate segmentsize newsize a w = Some (ret, a', w') ->
                     pairwise disjoint (requests (calls w'))) ->
  exists ret a' w2,
    reallocate segmentsize newsize p old a w = Some (ret, a', w2) /\
    ret <> p /\
    disjoint (p, old) (ret, newsize) /\
    (forall i, 0 <= i < old -> bytes w2 (ret + i) = bytes w (p + i)) /\
    (forall i, 0 <= i < old -> bytes w2 (p + i) = bytes w (p + i)) /\
    releases (calls w2) = releases (calls w).
Proof.
  intros Hseg Hsizes Hrun Hin Hold Hnew Hbase Hblocks.
  destruct (reallocate_after_allocations segmentsize sizes b w0 ps a w p old newsize)
    as (ret & a' & w2 & Hre & Hdis & Hcopy & Hkeep & Hrel); try assumption; [lia |].
  exists ret, a', w2. split; [exact Hre |].
  split; [| repeat split; assumption].
  unfold disjoint in Hdis. cbn [fst snd] in Hdis. lia.
Qed.

Lemma growing_moves_the_region_witness :
  exists a' w2,
    reallocate 64 32 4112 16 arena_one world_one = Some (4128, a', w2) /\
    4128 <> 4112.
Proof.
  destruct (growing_moves_the_region 64 [16] 4096 empty_world [4112]
              arena_one world_one 4112 16 32)
    as (ret & a' & w2 & Hre & Hne & _).
  - unfold sizeof_Segment. lia.
  - repeat (apply Forall_cons_2 || apply Forall_nil_2); vm_compute; split; discriminate.
  - reflexivity.
  - left. reflexivity.
  - lia.
  - vm_compute. discriminate.
  - intros n. cbn. unfold NULL. lia.
  - intros ret a' w' Ha. vm_compute in Ha. injection Ha as _ _ <-.
    repeat (apply Forall_cons_2 || apply Forall_nil_2 || split).
  - pose proof Hre as Hre'. vm_compute in Hre'. injection Hre' as <- _ _.
    exists a', w2. split; [exact Hre | exact Hne].
Defined.

(** ** The destructor *)

Section Destructor.

Context {B : Type} `{BaseAllocator B}.

Lemma release_chain_inv (fuel : nat) :
  forall s (b : B) w b' w',
    release_chain fuel s b w = Some (b', w') ->
    exists l,
      chain w s l /\ (length l <= fuel)%nat /\
      b' = foldl (fun b r => base_deallocate r.1 r.2 b) b l /\
      w' = {| headers := headers w; bytes := bytes w;
              calls := calls w ++ map (fun r : Z * Z => Released r.1 r.2) l |}.
Proof.
  induction fuel as [| fuel IH]; intros s b w b' w'; cbn [release_chain].
  - destruct (s =? NULL) eqn:Hs; [| discriminate]. apply Z.eqb_eq in Hs. subst s.
    intros [= <- <-]. exists []. split; [constructor |]. split; [reflexivity |].
    split; [reflexivity |]. cbn. rewrite app_nil_r. destruct w. reflexivity.
  - destruct (s =? NULL) eqn:Hs.
    + apply Z.eqb_eq in Hs. subst s.
      intros [= <- <-]. exists []. split; [constructor |]. split; [cbn; lia |].
      split; [reflexivity |]. cbn. rewrite app_nil_r. destruct w. reflexivity.
    + apply Z.eqb_neq in Hs.
      destruct (load s w) as [h |] eqn:Hh; [| discriminate].
      cbn [mbind option_bind]. unfold call_deallocate. intros Hrec.
      destruct (IH _ _ _ _ _ Hrec) as (l & Hchain & Hlen & -> & ->).
      exists ((s, size h) :: l). split.
      * apply chain_link; [exact Hs | exact Hh |].
        apply (chain_agree (log (Released s (size h)) w)); [exact Hchain |].
        intros q _. reflexivity.
      * split; [cbn; lia |]. split; [reflexivity |].
        cbn [log headers bytes calls map fst snd]. rewrite <- app_assoc. reflexivity.
Qed.

Lemma release_chain_more_fuel (fuel : nat) :
  forall (fuel' : nat) s (b : B) w r,
    (fuel <= fuel')%nat ->
    release_chain fuel s b w = Some r ->
    release_chain fuel' s b w = Some r.
Proof.
  induction fuel as [| fuel IH]; intros fuel' s b w r Hle; cbn [release_chain].
  - destruct (s =? NULL) eqn:Hs; [| discriminate].
    intros <-. destruct fuel'; cbn [release_chain]; rewrite Hs; reflexivity.
  - destruct fuel' as [| fuel']; [lia |]. cbn [release_chain].
    destruct (s =? NULL); [intros <-; reflexivity |].
    destruct (load s w) as [h |]; [| discriminate].
    cbn [mbind option_bind]. unfold call_deallocate. apply IH. lia.
Qed.

(** X12.  A destructor that ends has walked a proper chain: from the head
    the headers lead to [NULL], one [deallocate] call was made for each
    segment on the way, in chain order, with its address and the size in
    its header, and nothing else happened: no header and no payload byte
    was written and no block was asked for.  An arena without a head makes
    no call at all.  More iterations do not change the outcome. *)
Theorem destructor_walks_the_chain (fuel : nat) (a : arena_allocator B) w b' w' :
  destroy fuel a w = Some (b', w') ->
  exists l,
    chain w (segment a) l /\
    (length l <= fuel)%nat /\
    b' = foldl (fun b r => base_deallocate r.1 r.2 b) (base a) l /\
    headers w' = headers w /\
    bytes w' = bytes w /\
    calls w' = calls w ++ map (fun r : Z * Z => Released r.1 r.2) l /\
    requests (calls w') = requests (calls w) /\
    (segment a = NULL -> l = []) /\
    forall fuel' : nat, (fuel <= fuel')%nat -> destroy fuel' a w = Some (b', w').
Proof.
  unfold destroy. intros Hd.
  destruct (release_chain_inv _ _ _ _ _ _ Hd) as (l & Hchain & Hlen & Hb & Hw).
  exists l. split; [exact Hchain |]. split; [exact Hlen |]. split; [exact Hb |].
  rewrite Hw. cbn [headers bytes calls].
  split; [reflexivity |]. split; [reflexivity |]. split; [reflexivity |].
  split; [rewrite requests_app, requests_released, app_nil_r; reflexivity |].
  split.
  - intros Hnull. rewrite Hnull in Hchain. exact (chain_from_null _ _ Hchain).
  - intros fuel' Hle. rewrite <- Hw.
    exact (release_chain_more_fuel _ _ _ _ _ _ Hle Hd).
Qed.





End Destructor.

Lemma destructor_walks_the_chain_witness :
  exists b' w',
    destroy 2 arena_two world_two = Some (b', w') /\
    calls w' = calls world_two ++ [Released 4096 64; Released 4176 1016] /\
    destroy 5 arena_two world_two = Some (b', w').
Proof.
  destruct (destroy 2 arena_two world_two) as [[b' w'] |] eqn:Hd;
    [| vm_compute in Hd; discriminate].
  destruct (destructor_walks_the_chain 2 arena_two world_two b' w' Hd)
    as (l & _ & _ & _ & _ & _ & _ & _ & _ & Hmore).
  exists b', w'. split; [reflexivity |]. split.
  - vm_compute in Hd. injection Hd as _ <-. reflexivity.
  - apply Hmore. lia.
Defined.


(** ** Handles on a shared allocator *)

(** X14.  [==] on shared allocators is an equivalence relation, as a
    container needs of its allocator: every handle equals itself, equality
    does not depend on the order of its arguments and passes along chains
    of equal handles; [!=] is irreflexive and symmetric. *)
Theorem shared_equality_is_an_equivalence (a b c : Shared.shared_allocator) :
  Shared.eq a a = true /\
  Shared.eq a b = Shared.eq b a /\
  (Shared.eq a b = true -> Shared.eq b c = true -> Shared.eq a c = true) /\
  Shared.ne a a = false /\
  Shared.ne a b = Shared.ne b a.
Proof.
  unfold Shared.ne, Shared.eq. split; [apply Z.eqb_refl |].
  split; [apply Z.eqb_sym |]. split.
  - rewrite !Z.eqb_eq. intros -> ->. reflexivity.
  - rewrite Z.eqb_refl, (Z.eqb_sym (Shared.base a)). split; reflexivity.
Qed.

Lemma shared_equality_is_an_equivalence_witness :
  Shared.eq (Shared.shared_allocator_new 100) (Shared.shared_allocator_new 100) = true.
Proof.
  destruct (shared_equality_is_an_equivalence
              (Shared.shared_allocator_new 100) (Shared.shared_allocator_new 100)
              (Shared.shared_allocator_new 100)) as (_ & _ & Htrans & _).
  apply Htrans; reflexivity.
Defined.

(** X15.  Handles that compare equal are one allocator: a request through
    one of them is answered by the instance they refer to, whose new state
    the next request through the other starts from, and a block obtained
    through one can be given back through the other.  Instances that other
    handles refer to are left alone. *)
Theorem equal_handles_are_one_allocator {B} `{BaseAllocator B}
        (a b : Shared.shared_allocator) (pool : gmap Z B) sz1 sz2 x p1 x1 p2 x2 :
  pool !! Shared.base a = Some x ->
  Shared.eq a b = true ->
  base_allocate sz1 x = (p1, x1) ->
  base_allocate sz2 x1 = (p2, x2) ->
  exists pool1 pool2,
    Shared.allocate sz1 a pool = Some (p1, pool1) /\
    Shared.allocate sz2 b pool1 = Some (p2, pool2) /\
    pool1 !! Shared.base b = Some x1 /\
    pool2 !! Shared.base a = Some x2 /\
    Shared.deallocate p1 sz1 b pool2
      = Some (<[Shared.base a := base_deallocate p1 sz1 x2]> pool) /\
    forall c, Shared.ne a c = true ->
              pool1 !! Shared.base c = pool !! Shared.base c /\
              pool2 !! Shared.base c = pool !! Shared.base c.
Proof.
  unfold Shared.ne, Shared.eq. intros Hx Heq Hb1 Hb2. apply Z.eqb_eq in Heq.
  exists (<[Shared.base a := x1]> pool), (<[Shared.base a := x2]> pool).
  unfold Shared.allocate, Shared.deallocate. rewrite <- Heq.
  rewrite Hx. cbn [mbind option_bind]. rewrite Hb1.
  rewrite !lookup_insert_eq. cbn [mbind option_bind]. rewrite Hb2.
  rewrite !insert_insert_eq.
  split; [reflexivity |]. split; [reflexivity |]. split; [reflexivity |].
  split; [reflexivity |]. split; [reflexivity |].
  intros c Hc. apply negb_true_iff, Z.eqb_neq in Hc.
  rewrite !lookup_insert_ne by exact Hc. split; reflexivity.
Qed.

Lemma equal_handles_are_one_allocator_witness :
  let pool : gmap Z Z := <[100 := 4096]> ∅ in
  let a := Shared.shared_allocator_new 100 in
  let b := Shared.shared_allocator_new 100 in
  exists pool1 pool2,
    Shared.allocate 64 a pool = Some (4096, pool1) /\
    Shared.allocate 64 b pool1 = Some (4176, pool2).
Proof.
  intros pool a b.
  destruct (equal_handles_are_one_allocator a b pool 64 64 4096 4096 4176 4176 4256)
    as (pool1 & pool2 & H1 & H2 & _); try reflexivity.
  exists pool1, pool2. split; [exact H1 | exact H2].
Defined.

(** ** Failure, growth from nothing, and the ends of the cursor's range *)

Section Edges.

Variable segmentsize : Z.
Context {B : Type} `{BaseAllocator B}.

(** X16.  [allocate] does not check what the backing allocator answers.
    With a readable head header it runs into undefined behaviour (the
    store of the new header through [NULL]) exactly when the branch it
    takes asks the backing allocator for a block and the answer is
    [NULL]; a request served at the cursor cannot fail. *)
Theorem allocate_fails_exactly_on_null_answer sz (a : arena_allocator B) w :
  (segment a <> NULL -> is_Some (load (segment a) w)) ->
  allocate segmentsize sz a w = None <->
  exists n b',
    base_allocate n (base a) = (NULL, b') /\
    ((segment a <> NULL /\ arena_size segmentsize <= round_size sz /\
      n = to_size_t (sizeof_Segment + round_size sz))
     \/
     ((segment a = NULL \/
       (round_size sz < arena_size segmentsize /\
        arena_size segmentsize < to_size_t (allocated a + round_size sz))) /\
      n = segmentsize)).
Proof.
  intros Hhead. unfold allocate, call_allocate.
  destruct (segment a =? NULL) eqn:Hseg;
    [apply Z.eqb_eq in Hseg | apply Z.eqb_neq in Hseg]; cbn [negb andb orb].
  - destruct (base_allocate segmentsize (base a)) as [ns b] eqn:Hb.
    unfold store. cbn [log headers bytes calls segment base].
    destruct (ns =? NULL) eqn:Hns;
      [apply Z.eqb_eq in Hns | apply Z.eqb_neq in Hns]; cbn [mbind option_bind].
    + subst ns. split; [intros _ | reflexivity].
      exists segmentsize, b. split; [exact Hb |]. right. split; [left; exact Hseg | reflexivity].
    + split; [discriminate |].
      intros (n & b' & Hb' & [(Hc & _) | (_ & ->)]); [congruence |].
      rewrite Hb in Hb'. congruence.
  - destruct (Hhead Hseg) as [h Hh].
    destruct (arena_size segmentsize <=? round_size sz) eqn:Hbig;
      [apply Z.leb_le in Hbig | apply Z.leb_gt in Hbig].
    + destruct (base_allocate (to_size_t (sizeof_Segment + round_size sz)) (base a))
        as [ns b] eqn:Hb.
      unfold load, log in *. cbn [segment headers bytes calls]. rewrite Hh.
      cbn [mbind option_bind]. unfold store at 1.
      destruct (ns =? NULL) eqn:Hns;
        [apply Z.eqb_eq in Hns | apply Z.eqb_neq in Hns]; cbn [mbind option_bind].
      * subst ns. split; [intros _ | reflexivity].
        exists (to_size_t (sizeof_Segment + round_size sz)), b.
        split; [exact Hb |]. left. repeat split; assumption.
      * unfold store_next, load, store. cbn [headers].
        pose proof Hseg as Hs. apply Z.eqb_neq in Hs. rewrite Hs.
        assert (is_Some (<[ns := {| next := next h;
                                     size := to_size_t (sizeof_Segment + round_size sz) |}]>
                           (headers w) !! segment a)) as [h1 Hh1].
        { destruct (decide (ns = segment a)) as [-> | Hne].
          - rewrite lookup_insert_eq. eauto.
          - rewrite lookup_insert_ne by exact Hne. eauto. }
        rewrite Hh1. cbn [mbind option_bind]. split; [discriminate |].
        intros (n & b' & Hb' & [(_ & _ & ->) | ([Hc | [Hc _]] & _)]);
          [rewrite Hb in Hb'; congruence | congruence | lia].
    + destruct (arena_size segmentsize <? to_size_t (allocated a + round_size sz)) eqn:Hfit;
        [apply Z.ltb_lt in Hfit | apply Z.ltb_ge in Hfit].
      * destruct (base_allocate segmentsize (base a)) as [ns b] eqn:Hb.
        unfold store. cbn [log headers bytes calls segment base].
        destruct (ns =? NULL) eqn:Hns;
          [apply Z.eqb_eq in Hns | apply Z.eqb_neq in Hns]; cbn [mbind option_bind].
        -- subst ns. split; [intros _ | reflexivity].
           exists segmentsize, b. split; [exact Hb |]. right.
           split; [right; split; assumption | reflexivity].
        -- split; [discriminate |].
           intros (n & b' & Hb' & [(_ & Hc & _) | (_ & ->)]); [lia |].
           rewrite Hb in Hb'. congruence.
      * split; [discriminate |].
        intros (n & b' & _ & [(_ & Hc & _) | ([Hc | [_ Hc]] & _)]); [lia | congruence | lia].
Qed.

(** X17.  Growing a region of no bytes is [allocate]: the copy has nothing
    to copy, so [reallocate] with an old size of zero and a new size of at
    least one byte fails when [allocate] does and otherwise returns the same
    pointer and arena and leaves the same memory. *)
Theorem growing_from_nothing_is_allocate newsize pointer (a : arena_allocator B) w :
  0 < newsize ->
  match allocate segmentsize newsize a w with
  | None => reallocate segmentsize newsize pointer 0 a w = None
  | Some (ret, a', w1) =>
      exists w2,
        reallocate segmentsize newsize pointer 0 a w = Some (ret, a', w2) /\
        headers w2 = headers w1 /\ calls w2 = calls w1 /\
        forall x, bytes w2 x = bytes w1 x
  end.
Proof.
  intros Hnew. unfold reallocate.
  assert ((newsize <=? 0) = false) as -> by (apply Z.leb_gt; exact Hnew).
  destruct (allocate segmentsize newsize a w) as [[[ret a'] w1] |]; [| reflexivity].
  cbn [mbind option_bind]. unfold memcpy.
  assert (overlap ret pointer 0 = false) as ->.
  { unfold overlap. apply andb_false_iff. rewrite !Z.ltb_ge. lia. }
  cbn [mbind option_bind]. eexists. split; [reflexivity |].
  cbn [headers calls bytes]. split; [reflexivity |]. split; [reflexivity |].
  intros x.
  assert ((ret <=? x) && (x <? ret + 0) = false) as ->; [| reflexivity].
  apply andb_false_iff. rewrite Z.leb_gt, Z.ltb_ge. lia.
Qed.

(** X18.  The test for room adds cursor and rounded size in [size_t].
    When that sum wraps around, the wrapped value is below the rounded
    size and so within the capacity: the request is served at the cursor
    (an address within the 64-bit range) and the cursor moves backwards. *)
Theorem wrapped_cursor_moves_backwards sz (a : arena_allocator B) w :
  segment a <> NULL ->
  in_size_t (allocated a) ->
  0 <= round_size sz < arena_size segmentsize ->
  size_max <= allocated a + round_size sz ->
  in_size_t (segment a + sizeof_Segment + allocated a) ->
  exists a',
    allocate segmentsize sz a w
      = Some (segment a + sizeof_Segment + allocated a, a', w) /\
    to_size_t (segment a + sizeof_Segment + allocated a)
      = segment a + sizeof_Segment + allocated a /\
    allocated a' = allocated a + round_size sz - size_max /\
    0 <= allocated a' < round_size sz /\
    allocated a' < allocated a /\
    segment a' = segment a.
Proof.
  intros Hseg Hcur Hr Hwrap Hptr.
  pose proof (to_size_t_range (segmentsize - sizeof_Segment)) as Hcap.
  assert (to_size_t (allocated a + round_size sz) = allocated a + round_size sz - size_max)
    as Hsum.
  { unfold to_size_t. symmetry. apply (Z.mod_unique _ _ 1).
    - unfold arena_size, in_size_t, size_max in *. lia.
    - lia. }
  eexists. split.
  - apply allocate_bump; [exact Hseg | lia |]. rewrite Hsum.
    unfold arena_size, in_size_t in *. lia.
  - split; [apply to_size_t_small; exact Hptr |].
    cbn [allocated segment]. rewrite Hsum.
    unfold arena_size, in_size_t in *. repeat split; lia.
Qed.

(** X19.  A head segment is given up only for a request it has no room
    for: when [allocate] replaces an existing head (cursor and rounded size
    in range), the request is below the large-request threshold and larger
    than the free space of the old head; the new head is a block of
    [segmentsize] bytes whose header points to the old head, and the
    pointer returned is the start of its data area. *)
Theorem head_is_replaced_only_when_out_of_room sz (a : arena_allocator B) w p a' w' :
  allocate segmentsize sz a w = Some (p, a', w') ->
  segment a <> NULL ->
  segment a' <> segment a ->
  0 <= allocated a -> 0 <= round_size sz ->
  allocated a + round_size sz < size_max ->
  round_size sz < arena_size segmentsize /\
  arena_size segmentsize - allocated a < round_size sz /\
  calls w' = calls w ++ [Allocated (segment a') segmentsize] /\
  load (segment a') w' = Some {| next := segment a; size := segmentsize |} /\
  p = segment a' + sizeof_Segment /\
  allocated a' = round_size sz.
Proof.
  intros Ha Hseg Hchanged Hcur Hr Hrange. apply allocate_inv in Ha.
  destruct Ha as [(_ & _ & ns & b & h & h' & _ & _ & _ & _ & _ & -> & _)
                 |[(Hcase & ns & b & _ & _ & -> & -> & ->)
                  |(_ & _ & _ & _ & -> & _)]];
    cbn [segment] in Hchanged; try congruence.
  destruct Hcase as [Hnull | [Hsmall Hfull]]; [congruence |].
  rewrite to_size_t_small in Hfull by (unfold in_size_t; lia).
  cbn [segment allocated calls]. unfold load. cbn [headers].
  split; [exact Hsmall |]. split; [lia |]. split; [reflexivity |].
  split; [apply lookup_insert_eq |]. split; reflexivity.
Qed.

End Edges.

Lemma allocate_fails_exactly_on_null_answer_witness :
  allocate 64 16 (arena_allocator_new 0) empty_world = None.
Proof.
  apply (allocate_fails_exactly_on_null_answer 64 16 (arena_allocator_new 0) empty_world).
  - intros Hc. destruct Hc. reflexivity.
  - exists 64, 80. split; [reflexivity |]. right. split; [left; reflexivity | reflexivity].
Defined.

Lemma growing_from_nothing_is_allocate_witness :
  exists w2,
    reallocate 64 8 4112 0 arena_one world_one
      = Some (4128, {| base := 4176; segment := 4096; allocated := 24 |}, w2) /\
    calls w2 = calls world_one.
Proof.
  pose proof (growing_from_nothing_is_allocate 64 8 4112 arena_one world_one) as Hthm.
  assert (allocate 64 8 arena_one world_one
          = Some (4128, {| base := 4176; segment := 4096; allocated := 24 |}, world_one))
    as Ha by reflexivity.
  rewrite Ha in Hthm. destruct Hthm as (w2 & Hre & _ & Hcalls & _); [lia |].
  exists w2. split; [exact Hre | exact Hcalls].
Defined.

Lemma wrapped_cursor_moves_backwards_witness :
  exists a',
    allocate 65536 8192 arena_wrapping world_one = Some (2 ^ 64 - 4080, a', world_one) /\
    allocated a' = 0.
Proof.
  destruct (wrapped_cursor_moves_backwards 65536 8192 arena_wrapping world_one)
    as (a' & Ha & _ & Hcur & _).
  - cbn. unfold NULL. lia.
  - vm_compute. split; [discriminate | reflexivity].
  - vm_compute. split; [discriminate | reflexivity].
  - vm_compute. discriminate.
  - vm_compute. split; [discriminate | reflexivity].
  - exists a'. split; [exact Ha |]. rewrite Hcur. reflexivity.
Defined.

Lemma head_is_replaced_only_when_out_of_room_witness :
  round_size 16 < arena_size 64 /\ arena_size 64 - allocated arena_full < round_size 16.
Proof.
  destruct (head_is_replaced_only_when_out_of_room
              64 16 arena_full world_one 4192 arena_four world_four)
    as (Hsmall & Hroom & _).
  - reflexivity.
  - cbn. unfold NULL. lia.
  - cbn. lia.
  - cbn. lia.
  - vm_compute. discriminate.
  - vm_compute. reflexivity.
  - split; [exact Hsmall | exact Hroom].
Defined.
